(** * Intersection normalisation (extractor/guidance/intersection_normalizer.cpp)

    A shallow embedding of [IntersectionNormalizer]: the mergeability test
    [CanMerge], the merge of segregated roads [MergeSegregatedRoads] and the
    adjustment for joining roads [AdjustForJoiningRoads].

    Angles and bearings are C++ [double]s in the source.  In the normaliser
    they are embedded as exact rationals [Q]: every operation it performs on
    them (addition, subtraction, halving, comparison against a constant) is a
    rational operation, and equality of angles is [Qeq] ([==]).  Rounding is
    not part of that embedding; what is proved on it are ranges, orders and
    shapes.  Which branch [combineAngles] takes at a difference of nearly 180
    is decided by rounding, and is settled on a second embedding of the angle
    arithmetic over binary64 floats ([Double]).

    A subscript of the intersection out of range is undefined behaviour in
    the source; the embedding makes it explicit as [None].  The table of
    coordinates is taken to cover every node of the graph.

    [std::sort] does not say in which order it leaves entries of equal
    angle.  [std_sort] is one such order; [sort_outcome] is every order the
    standard allows. *)

From Stdlib Require Import QArith Qabs Lqa Lia Sorted Permutation Floats.
From stdpp Require Import base option list.
From Equations Require Import Equations.

Local Open Scope Q_scope.

(** ** Data model *)

Definition NodeID := N.
Definition EdgeID := N.
Definition NameID := N.

(** The part of the node based graph's edge data that the normaliser reads. *)
Record EdgeData := mkEdgeData {
  name_id : NameID;
  roundabout : bool
}.

Record Coordinate := mkCoordinate {
  lon : Z;
  lat : Z
}.

Record ConnectedRoad := mkConnectedRoad {
  eid : EdgeID;
  angle : Q;
  bearing : Q;
  entry_allowed : bool
}.

(** [Intersection] is a [std::vector<ConnectedRoad>]. *)
Abbreviation Intersection := (list ConnectedRoad).

Definition with_angle (a : Q) (r : ConnectedRoad) : ConnectedRoad :=
  mkConnectedRoad (eid r) a (bearing r) (entry_allowed r).

Definition with_bearing (b : Q) (r : ConnectedRoad) : ConnectedRoad :=
  mkConnectedRoad (eid r) (angle r) b (entry_allowed r).

Definition with_entry_allowed (e : bool) (r : ConnectedRoad) : ConnectedRoad :=
  mkConnectedRoad (eid r) (angle r) (bearing r) e.

(** The members of the [IntersectionNormalizer] class and the free functions
    it calls on them: the graph accessor, the coordinate table, the name
    comparison (over the name table and the suffix table), the intersection
    generator and the mergable road detector.  They are collaborators of the
    normaliser and are read only. *)
Record IntersectionNormalizer := mkIntersectionNormalizer {
  GetEdgeData : EdgeID -> EdgeData;
  GetTarget : EdgeID -> NodeID;
  (* [GetAdjacentEdgeRange(node).size()] *)
  GetAdjacentEdgeRange_size : NodeID -> nat;
  (* [node_coordinates[node]], on a table that covers every node *)
  node_coordinates : NodeID -> Coordinate;
  haversineDistance : Coordinate -> Coordinate -> Q;
  requiresNameAnnounced : NameID -> NameID -> bool;
  CanMergeRoad : NodeID -> ConnectedRoad -> ConnectedRoad -> bool;
  intersection_generator : NodeID -> EdgeID -> Intersection
}.

(** ** Angle arithmetic *)

(** [std::max(a, b)] is [(a < b) ? b : a], [std::min(a, b)] is
    [(b < a) ? b : a]. *)
Definition std_max (a b : Q) : Q := if Qlt_le_dec a b then b else a.
Definition std_min (a b : Q) : Q := if Qlt_le_dec b a then b else a.

(** Modelled from the spec: [angularDeviation] lives in
    util/guidance/toolkit.hpp, which is not part of the sources at hand.  The
    specification describes it as the smallest absolute circular distance
    between two angles of [[0,360)], a value of [[0,180]]. *)
Definition angularDeviation (angle from : Q) : Q :=
  let deviation := Qabs (angle - from) in
  std_min (360 - deviation) deviation.

Definition aroundZero (first second : Q) : bool :=
  if Qlt_le_dec (std_max first second - std_min first second) 180
  then false else true.

Definition combineAngles (first second : Q) : Q :=
  if negb (aroundZero first second) then (1#2) * (first + second)
  else
    let offset := angularDeviation first second in
    let new_angle := std_max first second + (1#2) * offset in
    if Qlt_le_dec 360 new_angle then new_angle - 360 else new_angle.

(** The source asserts [0 <= result.angle <= 360.0] and the same for the
    bearing before it returns; an assertion computes nothing and is left out
    here ([combineAngles_range] shows that it holds on angles of [[0,360]]). *)
Definition merge (first second : ConnectedRoad) : ConnectedRoad :=
  let result := if entry_allowed first then first else second in
  let result := with_angle (combineAngles (angle first) (angle second)) result in
  with_bearing (combineAngles (bearing first) (bearing second)) result.

Definition adjustAngle (angle offset : Q) : Q :=
  let angle := angle + offset in
  if Qlt_le_dec 360 angle then angle - 360
  else if Qlt_le_dec angle 0 then angle + 360
  else angle.

Definition get_offset (lhs rhs : ConnectedRoad) : Q :=
  (1#2) * angularDeviation (angle lhs) (angle rhs).

(** [ConnectedRoad::compareByAngle] *)
Definition compareByAngle (lhs rhs : ConnectedRoad) : bool :=
  if Qlt_le_dec (angle lhs) (angle rhs) then true else false.

(** [std::sort] with [compareByAngle].  The ranges sorted here are short, and
    the sort is embedded as an insertion sort: an element moves in front of
    the elements that compare strictly greater. *)
Fixpoint sort_insert (x : ConnectedRoad) (l : Intersection) : Intersection :=
  match l with
  | [] => [x]
  | y :: l' => if compareByAngle y x then y :: sort_insert x l' else x :: l
  end.

Fixpoint std_sort (l : Intersection) : Intersection :=
  match l with
  | [] => []
  | x :: l' => sort_insert x (std_sort l')
  end.

(** [road.angle += delta] *)
Definition add_angle (delta : Q) (r : ConnectedRoad) : ConnectedRoad :=
  with_angle (angle r + delta) r.

(** [for (i = lo; i < hi; ++i) intersection[i].angle += delta] *)
Definition shift_angles (lo hi : nat) (delta : Q) (intersection : Intersection)
  : Intersection :=
  foldl (fun acc i => alter (add_angle delta) i acc)
        intersection (seq lo (hi - lo)).

(** ** Angle arithmetic in binary64

    The lambdas [aroundZero] and [combineAngles] once more, with the
    operations of the source on [double]s: IEEE 754 binary64, round to
    nearest even, comparisons false on NaN. *)

Module Double.

Definition std_max (a b : float) : float := if PrimFloat.ltb a b then b else a.
Definition std_min (a b : float) : float := if PrimFloat.ltb b a then b else a.

(** Modelled from the spec: [angularDeviation] of util/guidance/toolkit.hpp,
    the smallest absolute circular distance between two angles, with the
    subtractions done in binary64. *)
Definition angularDeviation (angle from : float) : float :=
  let deviation := PrimFloat.abs (PrimFloat.sub angle from) in
  std_min (PrimFloat.sub 360%float deviation) deviation.

Definition aroundZero (first second : float) : bool :=
  PrimFloat.leb 180%float
    (PrimFloat.sub (std_max first second) (std_min first second)).

Definition combineAngles (first second : float) : float :=
  if negb (aroundZero first second)
  then PrimFloat.mul 0.5%float (PrimFloat.add first second)
  else
    let offset := angularDeviation first second in
    let new_angle :=
      PrimFloat.add (std_max first second) (PrimFloat.mul 0.5%float offset) in
    if PrimFloat.ltb 360%float new_angle
    then PrimFloat.sub new_angle 360%float
    else new_angle.

(** The rational number a finite [double] stands for. *)
Definition value (x : float) : option Q :=
  match Prim2SF x with
  | S754_zero _ => Some 0
  | S754_finite negative mantissa exponent =>
      Some (inject_Z (if negative then Z.neg mantissa else Z.pos mantissa)
            * Qpower 2 exponent)
  | _ => None
  end.

End Double.

(** ** Predicates on angles and intersections *)

Definition in_circle (a : Q) : Prop := 0 <= a <= 360.

Definition road_in_circle (r : ConnectedRoad) : Prop :=
  in_circle (angle r) /\ in_circle (bearing r).

(** Ascending by angle; neighbours may share an angle. *)
Definition ascending (intersection : Intersection) : Prop :=
  forall (i j : nat) (x y : ConnectedRoad),
    (i <= j)%nat -> intersection !! i = Some x -> intersection !! j = Some y ->
    angle x <= angle y.

(** Each angle strictly below its successor's. *)
Definition strictly_ascending (intersection : Intersection) : Prop :=
  forall (i : nat) (x y : ConnectedRoad),
    intersection !! i = Some x -> intersection !! S i = Some y ->
    angle x < angle y.

(** The contract of [std::sort] with [compareByAngle]: it returns the entries
    it was given, in an order in which no entry compares less than an entry
    in front of it. *)
Definition sort_outcome (input output : Intersection) : Prop :=
  Permutation input output /\ ascending output.

Section Normalizer.

(** Constants of the guidance tool kit that the sources at hand use but do
    not define. *)
Variable EMPTY_NAMEID : NameID.
Variable MAXIMAL_ALLOWED_NO_TURN_DEVIATION : Q.

Variable self : IntersectionNormalizer.

(** ** CanMerge *)

Definition CanMerge (node_at_intersection : NodeID) (intersection : Intersection)
    (first_index second_index : nat) : option bool :=
  first ← intersection !! first_index;
  second ← intersection !! second_index;
  let first_data := GetEdgeData self (eid first) in
  let second_data := GetEdgeData self (eid second) in
  Some
    (if (length intersection <=? 2)%nat then false
     else if (name_id first_data =? EMPTY_NAMEID)%N
             || (name_id second_data =? EMPTY_NAMEID)%N then false
     else if requiresNameAnnounced self (name_id first_data) (name_id second_data)
          then false
     else if negb (CanMergeRoad self node_at_intersection first second) then false
     else true).

(** ** MergeSegregatedRoads *)

Definition getRight (intersection : Intersection) (index : nat) : nat :=
  ((index + length intersection - 1) mod length intersection)%nat.

Definition is_connected_to_roundabout (intersection : Intersection) : bool :=
  existsb (fun road => roundabout (GetEdgeData self (eid road))) intersection.

(** The merges that include the u-turn at index 0: the result is the flag
    [merged_first] and the intersection after the merge. *)
Definition merge_first (intersection_node : NodeID) (intersection : Intersection)
  : option (bool * Intersection) :=
  let size := length intersection in
  can_last ← CanMerge intersection_node intersection 0 (size - 1);
  if can_last : bool then
    last ← intersection !! (size - 1)%nat;
    let correction_factor := (360 - angle last) / 2 in
    let shifted := shift_angles 1 (size - 1) correction_factor intersection in
    front ← shifted !! 0%nat;
    back ← shifted !! (length shifted - 1)%nat;
    let merged := with_angle 0 (merge front back) in
    Some (true, removelast (<[0%nat := merged]> shifted))
  else
    can_second ← CanMerge intersection_node intersection 0 1;
    if can_second : bool then
      second ← intersection !! 1%nat;
      let correction_factor := angle second / 2 in
      let shifted := shift_angles 2 size (- correction_factor) intersection in
      first ← shifted !! 0%nat;
      second ← shifted !! 1%nat;
      let merged := with_angle 0 (merge first second) in
      Some (true, delete 1%nat (<[0%nat := merged]> shifted))
    else Some (false, intersection).

Definition disable_uturn (intersection : Intersection) : option Intersection :=
  first ← intersection !! 0%nat;
  Some (<[0%nat := with_entry_allowed false first]> intersection).

Definition inspect {A} (a : A) : {b | a = b} := exist _ a eq_refl.

(** The general pass:
    [for (index = 2; index < intersection.size(); ++index)], where a merge
    erases the entry at [index] and looks at the same index again. *)
Equations? merge_loop (intersection_node : NodeID) (intersection : Intersection)
    (index : nat) : option Intersection
    by wf (length intersection - index)%nat lt :=
  merge_loop intersection_node intersection index
    with inspect (index <? length intersection)%nat := {
    | exist _ false Hidx => Some intersection
    | exist _ true Hidx
        with inspect (CanMerge intersection_node intersection index
                        (getRight intersection index)) := {
        | exist _ None Hcan => None
        | exist _ (Some false) Hcan =>
            merge_loop intersection_node intersection (S index)
        | exist _ (Some true) Hcan
            with inspect (intersection !! getRight intersection index,
                          intersection !! index) := {
            | exist _ (Some right_road, Some road) Hroads =>
                merge_loop intersection_node
                  (delete index
                     (<[getRight intersection index := merge right_road road]>
                        intersection))
                  index
            | exist _ _ Hroads => None } } }.
Proof.
  - apply Nat.ltb_lt in Hidx.
    rewrite length_delete.
    + rewrite length_insert. lia.
    + apply lookup_lt_is_Some_2. rewrite length_insert. exact Hidx.
  - apply Nat.ltb_lt in Hidx. lia.
Qed.

Definition MergeSegregatedRoads (intersection_node : NodeID)
    (intersection : Intersection) : option Intersection :=
  if (length intersection <=? 1)%nat then Some intersection
  else
    let connected := is_connected_to_roundabout intersection in
    '(merged_first, intersection) ← merge_first intersection_node intersection;
    intersection ←
      (if merged_first && connected then disable_uturn intersection
       else Some intersection);
    intersection ← merge_loop intersection_node intersection 2;
    Some (std_sort intersection).

(** [MergeSegregatedRoads] on two or more roads, up to the call of
    [std::sort]. *)
Definition merge_passes (intersection_node : NodeID)
    (intersection : Intersection) : option Intersection :=
  let connected := is_connected_to_roundabout intersection in
  '(merged_first, intersection) ← merge_first intersection_node intersection;
  intersection ←
    (if merged_first && connected then disable_uturn intersection
     else Some intersection);
  merge_loop intersection_node intersection 2.

(** What [MergeSegregatedRoads] may return, the order of entries of equal
    angle being the one [std::sort] chooses. *)
Definition MergeSegregatedRoads_may_return (intersection_node : NodeID)
    (intersection result : Intersection) : Prop :=
  if (length intersection <=? 1)%nat then result = intersection
  else
    exists merged,
      merge_passes intersection_node intersection = Some merged /\
      sort_outcome merged result.

(** ** AdjustForJoiningRoads *)

Definition get_corrected_offset (offset : Q) (road : ConnectedRoad)
    (next_road_in_offset_direction : ConnectedRoad) : Q :=
  let offset_limit :=
    angularDeviation (angle road) (angle next_road_in_offset_direction) in
  if Qlt_le_dec offset_limit (offset + MAXIMAL_ALLOWED_NO_TURN_DEVIATION)
  then (1#2) * offset_limit
  else offset.

Definition adjust_road (offset : Q) (road : ConnectedRoad) : ConnectedRoad :=
  with_bearing (adjustAngle (bearing road) offset)
    (with_angle (adjustAngle (angle road) offset) road).

(** The body of the loop over [index], for one [index]. *)
Definition adjust_at (node_at_intersection : NodeID)
    (intersection : Intersection) (index : nat) : option Intersection :=
  let coordinate_at_intersection := node_coordinates self node_at_intersection in
  road ← intersection !! index;
  let next_intersection_along_road :=
    intersection_generator self node_at_intersection (eid road) in
  if (length next_intersection_along_road <=? 1)%nat then Some intersection
  else
    let node_at_next_intersection := GetTarget self (eid road) in
    let coordinate_at_next_intersection :=
      node_coordinates self node_at_next_intersection in
    if Qlt_le_dec 30 (haversineDistance self coordinate_at_intersection
                        coordinate_at_next_intersection)
    then Some intersection
    else if (GetAdjacentEdgeRange_size self node_at_next_intersection <=? 1)%nat
    then Some intersection
    else
      can_second ←
        CanMerge node_at_next_intersection next_intersection_along_road 0 1;
      if can_second : bool then
        next_first ← next_intersection_along_road !! 0%nat;
        next_second ← next_intersection_along_road !! 1%nat;
        let offset := get_offset next_first next_second in
        neighbour ← intersection !! ((index + 1) mod length intersection)%nat;
        let corrected_offset := get_corrected_offset offset road neighbour in
        Some (<[index := adjust_road corrected_offset road]> intersection)
      else
        let last_index := (length next_intersection_along_road - 1)%nat in
        can_last ←
          CanMerge node_at_next_intersection next_intersection_along_road
            0 last_index;
        if can_last : bool then
          next_first ← next_intersection_along_road !! 0%nat;
          next_last ← next_intersection_along_road !! last_index;
          let offset := get_offset next_first next_last in
          neighbour ← intersection !! (index - 1)%nat;
          let corrected_offset := get_corrected_offset offset road neighbour in
          Some (<[index := adjust_road (- corrected_offset) road]> intersection)
        else Some intersection.

(** [for (index = first; index < intersection.size(); ++index)]; the size of
    the intersection does not change in the loop, [count] is the number of
    indices still to visit. *)
Fixpoint adjust_loop (node_at_intersection : NodeID) (index count : nat)
    (intersection : Intersection) : option Intersection :=
  match count with
  | O => Some intersection
  | S count' =>
      intersection ← adjust_at node_at_intersection intersection index;
      adjust_loop node_at_intersection (S index) count' intersection
  end.

Definition AdjustForJoiningRoads (node_at_intersection : NodeID)
    (intersection : Intersection) : option Intersection :=
  if (length intersection <=? 1)%nat then Some intersection
  else adjust_loop node_at_intersection 1 (length intersection - 1) intersection.

(** [IntersectionNormalizer::operator()] *)
Definition normalize (node_at_intersection : NodeID)
    (intersection : Intersection) : option Intersection :=
  merged ← MergeSegregatedRoads node_at_intersection intersection;
  AdjustForJoiningRoads node_at_intersection merged.

(** An intersection as the data model has it, as far as the angles go:
    ascending by angle, angles within the circle, the u-turn at angle 0. *)
Definition well_ordered (intersection : Intersection) : Prop :=
  ascending intersection /\
  Forall (fun r => in_circle (angle r)) intersection /\
  exists uturn, intersection !! 0%nat = Some uturn /\ angle uturn == 0.

(** ** Conditions on the collaborators *)

(** The roads the intersection generator hands out have their angles within
    the circle. *)
Definition generator_in_circle : Prop :=
  forall (node : NodeID) (edge : EdgeID),
    Forall (fun r => in_circle (angle r)) (intersection_generator self node edge).

(** The conditions under which the loop body [continue]s, and the case of a
    next intersection of two roads, which [CanMerge] refuses. *)
Definition skips (node : NodeID) (road : ConnectedRoad) : Prop :=
  (length (intersection_generator self node (eid road)) <= 1)%nat \/
  30 < haversineDistance self (node_coordinates self node)
         (node_coordinates self (GetTarget self (eid road))) \/
  (GetAdjacentEdgeRange_size self (GetTarget self (eid road)) <= 1)%nat \/
  (length (intersection_generator self node (eid road)) <= 2)%nat.

End Normalizer.

(** ** Concrete intersections

    The constants are instantiated as OSRM has them: the empty name is name 0
    and the deviation that still counts as no turn is 3 degrees. *)

Module Example.

Definition EMPTY_NAMEID : NameID := 0%N.
Definition MAXIMAL_ALLOWED_NO_TURN_DEVIATION : Q := 3.

(** The unordered pair of edges [x], [y]. *)
Definition pair_of (x y : EdgeID) (a b : ConnectedRoad) : bool :=
  ((eid a =? x)%N && (eid b =? y)%N) || ((eid a =? y)%N && (eid b =? x)%N).

(** A normaliser over a graph in which the edges of [unnamed] have no name
    and all others share name 7, the edges of [on_roundabout] are on a
    roundabout, every edge leads to the node of its own number, every node
    has three adjacent edges and all nodes are 10 apart. *)
Definition normalizer (unnamed on_roundabout : EdgeID -> bool)
    (mergable : ConnectedRoad -> ConnectedRoad -> bool)
    (generator : NodeID -> EdgeID -> Intersection) : IntersectionNormalizer :=
  mkIntersectionNormalizer
    (fun e => mkEdgeData (if unnamed e then EMPTY_NAMEID else 7%N)
                         (on_roundabout e))
    (fun e => e)
    (fun _ => 3%nat)
    (fun _ => mkCoordinate 0%Z 0%Z)
    (fun _ _ => 10)
    (fun _ _ => false)
    (fun _ a b => mergable a b)
    generator.

Definition nowhere (_ : NodeID) (_ : EdgeID) : Intersection := [].

(** Four roads, a quarter turn apart. *)
Definition crossing : Intersection :=
  [ mkConnectedRoad 0%N 0 180 true;
    mkConnectedRoad 1%N 90 270 false;
    mkConnectedRoad 2%N 180 0 true;
    mkConnectedRoad 3%N 270 90 true ].

(** Every pair of roads passes the detector. *)
Definition all_mergable : IntersectionNormalizer :=
  normalizer (fun _ => false) (fun _ => false) (fun _ _ => true) nowhere.

(** Edge 1 has no name; the detector accepts every pair. *)
Definition unnamed_one : IntersectionNormalizer :=
  normalizer (fun e => (e =? 1)%N) (fun _ => false) (fun _ _ => true) nowhere.

(** Edge 2 is on a roundabout; the u-turn merges with the last road. *)
Definition at_roundabout : IntersectionNormalizer :=
  normalizer (fun _ => false) (fun e => (e =? 2)%N) (pair_of 0%N 3%N) nowhere.

(** Roads 1 and 2 are the two carriageways of a road that leads north, with
    bearings 350 and 10, and merge. *)
Definition northbound : Intersection :=
  [ mkConnectedRoad 0%N 0 180 true;
    mkConnectedRoad 1%N 170 350 true;
    mkConnectedRoad 2%N 190 10 true ].

Definition merges_one_two : IntersectionNormalizer :=
  normalizer (fun _ => false) (fun _ => false) (pair_of 1%N 2%N) nowhere.

(** Roads 2 and 3 merge to the angle of road 1. *)
Definition collapsing : Intersection :=
  [ mkConnectedRoad 0%N 0 180 true;
    mkConnectedRoad 1%N 20 200 true;
    mkConnectedRoad 2%N 100 280 true;
    mkConnectedRoad 3%N 300 120 true ].

Definition merges_two_three : IntersectionNormalizer :=
  normalizer (fun _ => false) (fun _ => false) (pair_of 2%N 3%N) nowhere.

(** Two roads that each lead to a close intersection whose u-turn merges
    with its last road; edge 5 leads nowhere. *)
Definition joining_generator (_ : NodeID) (e : EdgeID) : Intersection :=
  if (e =? 1)%N then
    [ mkConnectedRoad 10%N 0 0 true; mkConnectedRoad 11%N 150 150 true;
      mkConnectedRoad 12%N 280 280 true ]
  else if (e =? 2)%N then
    [ mkConnectedRoad 10%N 0 0 true; mkConnectedRoad 11%N 150 150 true;
      mkConnectedRoad 12%N 300 300 true ]
  else [].

Definition joining : IntersectionNormalizer :=
  normalizer (fun _ => false) (fun _ => false) (pair_of 10%N 12%N) joining_generator.

Definition close_turns : Intersection :=
  [ mkConnectedRoad 0%N 0 180 true;
    mkConnectedRoad 1%N 100 280 true;
    mkConnectedRoad 2%N 110 290 true ].

Definition dead_end_turn : Intersection :=
  [ mkConnectedRoad 0%N 0 180 true;
    mkConnectedRoad 5%N 100 280 true;
    mkConnectedRoad 2%N 110 290 true ].

(** Roads 2 and 3 are the two carriageways of one road and merge; roads 1
    and 2 each lead to a close intersection of [joining_generator]. *)
Definition split_exit : Intersection :=
  [ mkConnectedRoad 0%N 0 180 true;
    mkConnectedRoad 1%N 100 280 true;
    mkConnectedRoad 2%N 200 20 true;
    mkConnectedRoad 3%N 220 40 false ].

Definition merging_and_joining : IntersectionNormalizer :=
  normalizer (fun _ => false) (fun _ => false)
    (fun a b => pair_of 10%N 12%N a b || pair_of 2%N 3%N a b)
    joining_generator.

(** The crossing with every entry forbidden. *)
Definition closed_crossing : Intersection :=
  [ mkConnectedRoad 0%N 0 180 false;
    mkConnectedRoad 1%N 90 270 false;
    mkConnectedRoad 2%N 180 0 false;
    mkConnectedRoad 3%N 270 90 false ].

(** The u-turn merges with road 1 and with no other road. *)
Definition uturn_and_first : IntersectionNormalizer :=
  normalizer (fun _ => false) (fun _ => false) (pair_of 0%N 1%N) nowhere.



End Example.

(** * Properties *)

(** ** Rational arithmetic helpers *)

Lemma Qhalf (x : Q) : x / 2 == (1#2) * x.
Proof. unfold Qdiv. change (/ 2) with (1#2). lra. Qed.

Lemma Qabs_cases (x : Q) :
  (0 <= x /\ Qabs x == x) \/ (x <= 0 /\ Qabs x == - x).
Proof.
  destruct (Qlt_le_dec x 0) as [H|H].
  - right. split; [lra|]. apply Qabs_neg. lra.
  - left. split; [lra|]. apply Qabs_pos. lra.
Qed.

(** Names the absolute values and the halves of the goal and records what
    linear arithmetic needs to know about them. *)
Ltac q_name :=
  repeat match goal with
  | |- context [Qabs ?x] =>
      let H := fresh "Habs" in
      let v := fresh "v" in
      destruct (Qabs_cases x) as [[? H]|[? H]];
      set (v := Qabs x) in *; clearbody v
  | H : context [Qabs ?x] |- _ =>
      let H := fresh "Habs" in
      let v := fresh "v" in
      destruct (Qabs_cases x) as [[? H]|[? H]];
      set (v := Qabs x) in *; clearbody v
  | |- context [?x / 2] =>
      let H := fresh "Hhalf" in
      let v := fresh "h" in
      pose proof (Qhalf x) as H;
      set (v := x / 2) in *; clearbody v
  | H : context [?x / 2] |- _ =>
      let H := fresh "Hhalf" in
      let v := fresh "h" in
      pose proof (Qhalf x) as H;
      set (v := x / 2) in *; clearbody v
  end.

(** Unfolds the angle arithmetic, splits on every comparison and leaves
    linear goals. *)
Ltac q_split :=
  unfold combineAngles, aroundZero, angularDeviation, adjustAngle,
    get_offset, std_max, std_min in *;
  cbn [negb] in *;
  repeat match goal with
  | |- context [Qlt_le_dec ?a ?b] => destruct (Qlt_le_dec a b); cbn [negb] in *
  | H : context [Qlt_le_dec ?a ?b] |- _ =>
      destruct (Qlt_le_dec a b); cbn [negb] in *
  end;
  q_name.

Ltac q_solve := q_split; try lra.

(** ** Angle arithmetic *)

Lemma angularDeviation_range (a b : Q) :
  in_circle a -> in_circle b -> 0 <= angularDeviation a b <= 180.
Proof. unfold in_circle. intros Ha Hb. q_solve. Qed.

Lemma angularDeviation_le_gap (a b : Q) :
  a <= b -> angularDeviation a b <= b - a /\ angularDeviation b a <= b - a.
Proof. intros Hab. split; q_solve. Qed.

Lemma combineAngles_range (a b : Q) :
  in_circle a -> in_circle b -> in_circle (combineAngles a b).
Proof. unfold in_circle. intros Ha Hb. q_solve. Qed.

Lemma adjustAngle_range (a c : Q) :
  in_circle a -> -360 <= c <= 360 -> in_circle (adjustAngle a c).
Proof. unfold in_circle. intros Ha Hc. q_solve. Qed.

Lemma adjustAngle_no_wrap (a c : Q) :
  0 <= a + c <= 360 -> adjustAngle a c == a + c.
Proof. intros H. q_solve. Qed.

(** ** Angle arithmetic in binary64 *)

(** C2, as amended: in the arithmetic of the source, when the difference of
    the larger and the smaller angle, rounded as the subtraction of doubles
    rounds it, is not 180 or more, [combineAngles] is half the sum of the two
    angles; when it is 180 or more, [combineAngles] is the larger angle plus
    half their angular deviation, less 360 when that sum exceeds 360.
    [combineAngles 350 10] is 360, which is 0 away from 0, and is not 180. *)
Theorem combineAngles_double_cases (a b : float) :
  let larger := if PrimFloat.ltb a b then b else a in
  let smaller := if PrimFloat.ltb b a then b else a in
  let difference := PrimFloat.sub larger smaller in
  let deviation := PrimFloat.abs (PrimFloat.sub a b) in
  let offset :=
    if PrimFloat.ltb deviation (PrimFloat.sub 360 deviation)
    then deviation else PrimFloat.sub 360 deviation in
  let sum := PrimFloat.add larger (PrimFloat.mul 0.5 offset) in
  (PrimFloat.leb 180 difference = false ->
   Double.combineAngles a b = PrimFloat.mul 0.5 (PrimFloat.add a b)) /\
  (PrimFloat.leb 180 difference = true ->
   (PrimFloat.ltb 360 sum = false -> Double.combineAngles a b = sum) /\
   (PrimFloat.ltb 360 sum = true ->
    Double.combineAngles a b = PrimFloat.sub sum 360)) /\
  Double.combineAngles 350 10 = 360%float /\
  Double.angularDeviation (Double.combineAngles 350 10) 0 = 0%float /\
  PrimFloat.eqb (Double.combineAngles 350 10) 180 = false.
Proof.
  cbv zeta.
  unfold Double.combineAngles, Double.aroundZero, Double.angularDeviation,
    Double.std_max, Double.std_min.
  split; [|split; [|split; [|split]]].
  - intros Hnear. rewrite Hnear. reflexivity.
  - intros Hfar. rewrite Hfar. cbn [negb].
    split; intros Hsum; rewrite Hsum; reflexivity.
  - vm_compute. reflexivity.
  - vm_compute. reflexivity.
  - vm_compute. reflexivity.
Qed.

(** C2, the claim as stated fails: the doubles [2^-60] and 180 lie in
    [[0,360)] and are less than 180 apart, but their difference rounds to
    180, and [combineAngles] returns 270 where the mean is 90.  The doubles
    next to 0.1 and 180.1 behave alike. *)
Lemma combineAngles_rounds_into_wrap :
  (exists qa qb,
      Double.value 0x1p-60 = Some qa /\ Double.value 180 = Some qb /\
      (0 <= qa /\ qa < 360) /\ (0 <= qb /\ qb < 360) /\
      Qabs (qa - qb) < 180 /\
      Double.combineAngles 0x1p-60 180 = 270%float /\
      PrimFloat.mul 0.5 (PrimFloat.add 0x1p-60 180) = 90%float /\
      ~ (qa + qb) / 2 == 270) /\
  (exists qa qb result qr,
      Double.value 0x1.999999999999ap-4 = Some qa /\
      Double.value 0x1.6833333333333p+7 = Some qb /\
      (0 <= qa /\ qa < 360) /\ (0 <= qb /\ qb < 360) /\
      Qabs (qa - qb) < 180 /\
      Double.combineAngles 0x1.999999999999ap-4 0x1.6833333333333p+7
      = result /\
      Double.value result = Some qr /\
      270 < qr /\
      PrimFloat.eqb result
        (PrimFloat.mul 0.5
           (PrimFloat.add 0x1.999999999999ap-4 0x1.6833333333333p+7))
      = false).
Proof.
  split.
  - eexists _, _.
    split; [vm_compute; reflexivity|]. split; [vm_compute; reflexivity|].
    split; [split; [vm_compute; discriminate|vm_compute; reflexivity]|].
    split; [split; [vm_compute; discriminate|vm_compute; reflexivity]|].
    split; [vm_compute; reflexivity|].
    split; [vm_compute; reflexivity|].
    split; [vm_compute; reflexivity|].
    intros H. vm_compute in H. discriminate.
  - eexists _, _, _, _.
    split; [vm_compute; reflexivity|]. split; [vm_compute; reflexivity|].
    split; [split; [vm_compute; discriminate|vm_compute; reflexivity]|].
    split; [split; [vm_compute; discriminate|vm_compute; reflexivity]|].
    split; [vm_compute; reflexivity|].
    split; [vm_compute; reflexivity|].
    split; [vm_compute; reflexivity|].
    split; vm_compute; reflexivity.
Qed.

(** ** Shapes of intersections *)

Lemma ascending_cons_inv (x : ConnectedRoad) (l : Intersection) :
  ascending (x :: l) ->
  Forall (fun y => angle x <= angle y) l /\ ascending l.
Proof.
  intros Hasc. split.
  - apply Forall_lookup_2. intros i y Hy.
    apply (Hasc 0%nat (S i) x y); [lia|reflexivity|exact Hy].
  - intros i j a b Hij Ha Hb.
    apply (Hasc (S i) (S j) a b); [lia|exact Ha|exact Hb].
Qed.

Lemma ascending_cons (x : ConnectedRoad) (l : Intersection) :
  Forall (fun y => angle x <= angle y) l -> ascending l -> ascending (x :: l).
Proof.
  intros Hx Hl i j a b Hij Ha Hb.
  destruct i as [|i], j as [|j]; cbn in Ha, Hb.
  - injection Ha as <-. injection Hb as <-. lra.
  - injection Ha as <-. apply (Forall_lookup_1 _ _ _ _ Hx Hb).
  - lia.
  - apply (Hl i j a b); [lia|exact Ha|exact Hb].
Qed.

Lemma StronglySorted_ascending (l : Intersection) :
  StronglySorted (fun x y => angle x <= angle y) l -> ascending l.
Proof.
  induction 1 as [|x l Hl IH Hx].
  - intros i j a b _ Ha. rewrite lookup_nil in Ha. discriminate.
  - apply ascending_cons; assumption.
Qed.

Lemma shift_angles_lookup (delta : Q) (count lo : nat) (l : Intersection) (j : nat) :
  shift_angles lo (lo + count) delta l !! j =
  if decide (lo <= j < lo + count)%nat
  then add_angle delta <$> l !! j
  else l !! j.
Proof.
  unfold shift_angles. replace (lo + count - lo)%nat with count by lia.
  revert lo l. induction count as [|count IH]; intros lo l.
  - cbn. destruct (decide _) as [H|H]; [lia|reflexivity].
  - cbn [seq foldl]. replace (lo + S count)%nat with (S lo + count)%nat by lia.
    specialize (IH (S lo) (alter (add_angle delta) lo l)).
    rewrite IH. rewrite list_lookup_alter.
    destruct (decide (lo = j)) as [->|Hne].
    + destruct (decide (S j <= j < S j + count)%nat) as [H|_]; [lia|].
      destruct (decide (j <= j < S j + count)%nat) as [_|H]; [|lia].
      destruct (l !! j); reflexivity.
    + destruct (decide (S lo <= j < S lo + count)%nat) as [H|H];
        destruct (decide (lo <= j < S lo + count)%nat) as [H'|H'];
        try lia; reflexivity.
Qed.

(** The loop over a range of indices, as a map over that part of the list. *)
Lemma shift_angles_app (delta : Q) (pre mid post : Intersection) :
  shift_angles (length pre) (length pre + length mid) delta (pre ++ mid ++ post)
  = pre ++ (add_angle delta <$> mid) ++ post.
Proof.
  apply list_eq. intros j. rewrite shift_angles_lookup.
  destruct (decide (length pre <= j < length pre + length mid)%nat) as [H|H].
  - rewrite !(lookup_app_r pre) by lia.
    rewrite !lookup_app_l by (rewrite ?length_fmap; lia).
    rewrite list_lookup_fmap.
    destruct (mid !! (j - length pre)%nat); reflexivity.
  - destruct (decide (j < length pre)%nat) as [Hlt|Hge].
    + rewrite !lookup_app_l by lia. reflexivity.
    + rewrite !(lookup_app_r pre) by lia.
      rewrite !lookup_app_r by (rewrite ?length_fmap; lia).
      rewrite length_fmap. reflexivity.
Qed.

Lemma split_first_last (l : Intersection) :
  (2 <= length l)%nat ->
  exists first interior last, l = first :: interior ++ [last].
Proof.
  intros Hlen. destruct l as [|first rest]; [cbn in Hlen; lia|].
  destruct (exists_last (l := rest)) as [interior [last ->]].
  - intros ->. cbn in Hlen. lia.
  - exists first, interior, last. reflexivity.
Qed.

Section NormalizerProperties.

Variable EMPTY_NAMEID : NameID.
Variable MAXIMAL_ALLOWED_NO_TURN_DEVIATION : Q.
Variable self : IntersectionNormalizer.

(** ** CanMerge *)

Lemma CanMerge_in_range (node : NodeID) (l : Intersection) (i j : nat) :
  (i < length l)%nat -> (j < length l)%nat ->
  exists b, CanMerge EMPTY_NAMEID self node l i j = Some b.
Proof.
  intros Hi Hj. unfold CanMerge.
  destruct (lookup_lt_is_Some_2 l i Hi) as [x ->].
  destruct (lookup_lt_is_Some_2 l j Hj) as [y ->].
  cbn. eexists. reflexivity.
Qed.

Lemma CanMerge_true_size (node : NodeID) (l : Intersection) (i j : nat) :
  CanMerge EMPTY_NAMEID self node l i j = Some true -> (2 < length l)%nat.
Proof.
  unfold CanMerge. intros H.
  destruct (l !! i) as [x|]; [|discriminate].
  destruct (l !! j) as [y|]; [|discriminate].
  cbn in H. destruct (Nat.leb_spec (length l) 2) as [Hle|Hgt]; [discriminate|lia].
Qed.

(** ** The merges that include the u-turn *)

Lemma merge_first_last (node : NodeID) (l : Intersection)
    (first : ConnectedRoad) (interior : Intersection) (last : ConnectedRoad) :
  l = first :: interior ++ [last] ->
  CanMerge EMPTY_NAMEID self node l 0 (length l - 1) = Some true ->
  merge_first EMPTY_NAMEID self node l =
  Some (true,
        with_angle 0 (merge first last)
          :: (add_angle ((360 - angle last) / 2) <$> interior)).
Proof.
  intros -> Hcan. unfold merge_first. rewrite Hcan. cbn [mbind option_bind].
  assert (Hlen : (length (first :: interior ++ [last]) - 1)%nat
                 = (1 + length interior)%nat).
  { cbn. rewrite length_app. cbn. lia. }
  rewrite Hlen.
  assert (Hlast : (first :: interior ++ [last]) !! (1 + length interior)%nat
                  = Some last).
  { change ((interior ++ [last]) !! length interior = Some last).
    apply list_lookup_middle. reflexivity. }
  rewrite Hlast. cbn [mbind option_bind].
  pose proof (shift_angles_app ((360 - angle last) / 2) [first] interior [last])
    as Hshift.
  cbn [length app] in Hshift. rewrite Hshift.
  cbn [lookup list_lookup mbind option_bind].
  replace (length (first :: (add_angle ((360 - angle last) / 2) <$> interior)
                     ++ [last]) - 1)%nat
    with (S (length interior))
    by (cbn; rewrite length_app, length_fmap; cbn; lia).
  change ((first :: (add_angle ((360 - angle last) / 2) <$> interior) ++ [last])
            !! S (length interior))
    with (((add_angle ((360 - angle last) / 2) <$> interior) ++ [last])
            !! length interior).
  rewrite list_lookup_middle by (rewrite length_fmap; reflexivity).
  cbn [lookup list_lookup mbind option_bind insert list_insert].
  rewrite app_comm_cons, removelast_last. reflexivity.
Qed.

Lemma merge_first_second (node : NodeID) (l : Intersection)
    (first second : ConnectedRoad) (rest : Intersection) :
  l = first :: second :: rest ->
  CanMerge EMPTY_NAMEID self node l 0 (length l - 1) = Some false ->
  CanMerge EMPTY_NAMEID self node l 0 1 = Some true ->
  merge_first EMPTY_NAMEID self node l =
  Some (true,
        with_angle 0 (merge first second)
          :: (add_angle (- (angle second / 2)) <$> rest)).
Proof.
  intros -> Hlast Hcan. unfold merge_first.
  rewrite Hlast. cbn [mbind option_bind]. rewrite Hcan.
  cbn [mbind option_bind lookup list_lookup].
  pose proof (shift_angles_app (- (angle second / 2)) [first; second] rest [])
    as Hshift.
  rewrite app_nil_r in Hshift. cbn [length app] in Hshift.
  replace (length (first :: second :: rest)) with (2 + length rest)%nat
    by reflexivity.
  rewrite Hshift, app_nil_r. reflexivity.
Qed.

Lemma merge_first_none (node : NodeID) (l : Intersection) :
  CanMerge EMPTY_NAMEID self node l 0 (length l - 1) = Some false ->
  CanMerge EMPTY_NAMEID self node l 0 1 = Some false ->
  merge_first EMPTY_NAMEID self node l = Some (false, l).
Proof.
  intros Hlast Hcan. unfold merge_first.
  rewrite Hlast. cbn [mbind option_bind]. rewrite Hcan. reflexivity.
Qed.

(** The three ways through the merges that include the u-turn. *)
Lemma merge_first_cases (node : NodeID) (l : Intersection) :
  (2 <= length l)%nat ->
  (exists first interior last,
      l = first :: interior ++ [last] /\ interior <> [] /\
      CanMerge EMPTY_NAMEID self node l 0 (length l - 1) = Some true /\
      merge_first EMPTY_NAMEID self node l =
      Some (true,
            with_angle 0 (merge first last)
              :: (add_angle ((360 - angle last) / 2) <$> interior)))
  \/ (exists first second rest,
      l = first :: second :: rest /\ rest <> [] /\
      CanMerge EMPTY_NAMEID self node l 0 (length l - 1) = Some false /\
      CanMerge EMPTY_NAMEID self node l 0 1 = Some true /\
      merge_first EMPTY_NAMEID self node l =
      Some (true,
            with_angle 0 (merge first second)
              :: (add_angle (- (angle second / 2)) <$> rest)))
  \/ (CanMerge EMPTY_NAMEID self node l 0 (length l - 1) = Some false /\
      CanMerge EMPTY_NAMEID self node l 0 1 = Some false /\
      merge_first EMPTY_NAMEID self node l = Some (false, l)).
Proof.
  intros Hlen.
  destruct (CanMerge_in_range node l 0 (length l - 1)) as [[|] Hlast]; try lia.
  - left. destruct (split_first_last l Hlen) as (first & interior & last & Hl).
    exists first, interior, last. repeat split; try assumption.
    + intros ->. apply CanMerge_true_size in Hlast. subst l. cbn in Hlast. lia.
    + apply merge_first_last; assumption.
  - destruct (CanMerge_in_range node l 0 1) as [[|] Hcan]; try lia.
    + right. left. destruct l as [|first [|second rest]]; try (cbn in Hlen; lia).
      exists first, second, rest. repeat split; try assumption.
      * intros ->. apply CanMerge_true_size in Hcan. cbn in Hcan. lia.
      * apply merge_first_second; [reflexivity|assumption..].
    + right. right. repeat split; try assumption.
      apply merge_first_none; assumption.
Qed.

(** ** The general pass *)

Lemma merge_loop_eq (node : NodeID) (l : Intersection) (index : nat) :
  merge_loop EMPTY_NAMEID self node l index =
  if (index <? length l)%nat then
    match CanMerge EMPTY_NAMEID self node l index (getRight l index) with
    | None => None
    | Some false => merge_loop EMPTY_NAMEID self node l (S index)
    | Some true =>
        match l !! getRight l index, l !! index with
        | Some right_road, Some road =>
            merge_loop EMPTY_NAMEID self node
              (delete index (<[getRight l index := merge right_road road]> l))
              index
        | _, _ => None
        end
    end
  else Some l.
Proof.
  funelim (merge_loop EMPTY_NAMEID self node l index);
    repeat match goal with
    | H : (_ <? _)%nat = _ |- _ => progress rewrite H
    | H : CanMerge _ _ _ _ _ _ = _ |- _ => progress rewrite H
    | H : _ !! _ = _ |- _ => progress rewrite H
    | H : (_, _) = (_, _) |- _ =>
        let H1 := fresh in
        let H2 := fresh in
        injection H as H1 H2; rewrite ?H1, ?H2
    end;
    reflexivity.
Qed.

Lemma getRight_pred (l : Intersection) (index : nat) :
  (1 <= index < length l)%nat -> getRight l index = (index - 1)%nat.
Proof.
  intros H. unfold getRight.
  replace (index + length l - 1)%nat with (index - 1 + 1 * length l)%nat by lia.
  rewrite Nat.Div0.mod_add. apply Nat.mod_small. lia.
Qed.

(** The general pass returns, leaves entry 0 alone, never lengthens the
    intersection, and keeps every property of roads that [merge] keeps. *)
Lemma merge_loop_inv (P : ConnectedRoad -> Prop)
    (HP : forall a b, P a -> P b -> P (merge a b)) (node : NodeID) :
  forall (n : nat) (l : Intersection) (index : nat),
    (length l - index <= n)%nat -> (2 <= index)%nat -> Forall P l ->
    exists out,
      merge_loop EMPTY_NAMEID self node l index = Some out /\
      Forall P out /\ out !! 0%nat = l !! 0%nat /\
      (length out <= length l)%nat.
Proof.
  induction n as [|n IH]; intros l index Hn Hidx HPl;
    rewrite merge_loop_eq;
    destruct (Nat.ltb_spec index (length l)) as [Hlt|Hge];
    try lia; try (exists l; repeat split; auto; fail).
  rewrite (getRight_pred l index) by lia.
  destruct (CanMerge_in_range node l index (index - 1)) as [[|] Hcan];
    try lia; rewrite Hcan.
  - destruct (lookup_lt_is_Some_2 l (index - 1)) as [right_road Hr]; [lia|].
    destruct (lookup_lt_is_Some_2 l index Hlt) as [road Hc].
    rewrite Hr, Hc.
    set (l' := delete index (<[(index - 1)%nat := merge right_road road]> l)).
    assert (Hlen : length l' = (length l - 1)%nat).
    { unfold l'. rewrite length_delete, length_insert; [reflexivity|].
      apply lookup_lt_is_Some_2. rewrite length_insert. exact Hlt. }
    assert (HPl' : Forall P l').
    { unfold l'. apply Forall_delete, Forall_insert; [exact HPl|].
      apply HP; eapply Forall_lookup_1; eauto. }
    destruct (IH l' index) as (out & Hout & HPout & Hhead & Hle);
      [lia|exact Hidx|exact HPl'|].
    exists out. repeat split; try assumption; [|lia].
    rewrite Hhead. unfold l'.
    rewrite list_lookup_delete_lt by lia.
    apply list_lookup_insert_ne. lia.
  - destruct (IH l (S index)) as (out & Hout & HPout & Hhead & Hle);
      try assumption; try lia.
    exists out. auto.
Qed.

(** ** The sort *)

Lemma sort_insert_Forall (P : ConnectedRoad -> Prop) (x : ConnectedRoad)
    (l : Intersection) :
  P x -> Forall P l -> Forall P (sort_insert x l).
Proof.
  intros Hx. induction 1 as [|y l Hy Hl IH]; cbn.
  - constructor; [exact Hx|constructor].
  - destruct (compareByAngle y x); repeat constructor; assumption.
Qed.

Lemma std_sort_Forall (P : ConnectedRoad -> Prop) (l : Intersection) :
  Forall P l -> Forall P (std_sort l).
Proof.
  induction 1 as [|x l Hx Hl IH]; cbn; [constructor|].
  apply sort_insert_Forall; assumption.
Qed.

Lemma sort_insert_sorted (x : ConnectedRoad) (l : Intersection) :
  StronglySorted (fun a b => angle a <= angle b) l ->
  StronglySorted (fun a b => angle a <= angle b) (sort_insert x l).
Proof.
  induction 1 as [|y l Hl IH Hy]; cbn.
  - constructor; constructor.
  - unfold compareByAngle. destruct (Qlt_le_dec (angle y) (angle x)) as [Hlt|Hle].
    + constructor; [exact IH|].
      apply sort_insert_Forall; [lra|exact Hy].
    + constructor; [constructor; assumption|].
      constructor; [exact Hle|].
      eapply Forall_impl; [exact Hy|]. cbn. intros z Hz. lra.
Qed.

Lemma std_sort_sorted (l : Intersection) :
  StronglySorted (fun a b => angle a <= angle b) (std_sort l).
Proof.
  induction l as [|x l IH]; cbn; [constructor|].
  apply sort_insert_sorted. exact IH.
Qed.

(** An entry that no other entry undercuts stays in front. *)
Lemma std_sort_head (x : ConnectedRoad) (l : Intersection) :
  Forall (fun y => angle x <= angle y) l ->
  std_sort (x :: l) = x :: std_sort l.
Proof.
  intros Hx. cbn. apply (std_sort_Forall _ _) in Hx.
  destruct (std_sort l) as [|y l']; [reflexivity|]. cbn.
  unfold compareByAngle.
  destruct (Qlt_le_dec (angle y) (angle x)) as [Hlt|Hle]; [|reflexivity].
  apply Forall_cons in Hx. destruct Hx as [Hy _]. lra.
Qed.

(** ** MergeSegregatedRoads *)

(** The merged u-turn, field by field. *)
Lemma merged_uturn_fields (first second : ConnectedRoad) :
  with_angle 0 (merge first second) =
  mkConnectedRoad (if entry_allowed first then eid first else eid second) 0
    (combineAngles (bearing first) (bearing second))
    (entry_allowed first || entry_allowed second).
Proof.
  unfold merge, with_angle, with_bearing.
  destruct (entry_allowed first) eqn:Hfirst; cbn; rewrite ?Hfirst; reflexivity.
Qed.


(** What follows the merges that include the u-turn: entry 0 loses its
    permission when the intersection touches a roundabout, the general pass
    runs over the entries behind it, and the result is sorted. *)
Lemma MergeSegregatedRoads_after_first (P : ConnectedRoad -> Prop)
    (HPmerge : forall a b, P a -> P b -> P (merge a b))
    (HPentry : forall r, P r -> P (with_entry_allowed false r))
    (node : NodeID) (l : Intersection) (merged_first : bool)
    (x : ConnectedRoad) (t : Intersection) :
  (2 <= length l)%nat ->
  merge_first EMPTY_NAMEID self node l = Some (merged_first, x :: t) ->
  Forall P (x :: t) ->
  exists t',
    merge_loop EMPTY_NAMEID self node
      ((if merged_first && is_connected_to_roundabout self l
        then with_entry_allowed false x else x) :: t) 2
    = Some ((if merged_first && is_connected_to_roundabout self l
             then with_entry_allowed false x else x) :: t') /\
    MergeSegregatedRoads EMPTY_NAMEID self node l
    = Some (std_sort
              ((if merged_first && is_connected_to_roundabout self l
                then with_entry_allowed false x else x) :: t')) /\
    Forall P ((if merged_first && is_connected_to_roundabout self l
               then with_entry_allowed false x else x) :: t') /\
    (length t' <= length t)%nat.
Proof.
  intros Hlen Hfirst HP.
  set (x' := if merged_first && is_connected_to_roundabout self l
             then with_entry_allowed false x else x).
  assert (HP' : Forall P (x' :: t)).
  { apply Forall_cons in HP. destruct HP as [Hx Ht].
    constructor; [|exact Ht].
    unfold x'. destruct (_ && _); [apply HPentry|]; exact Hx. }
  destruct (merge_loop_inv P HPmerge node (length (x' :: t)) (x' :: t) 2)
    as (out & Hout & HPout & Hhead & Hle); [lia|lia|exact HP'|].
  destruct out as [|y t']; [discriminate|].
  cbn in Hhead. injection Hhead as ->.
  exists t'. repeat split; try assumption; [|cbn in Hle; lia].
  unfold MergeSegregatedRoads.
  destruct (Nat.leb_spec (length l) 1) as [Hle1|_]; [lia|].
  rewrite Hfirst. cbn [mbind option_bind].
  fold x'. unfold x' in Hout |- *.
  destruct (merged_first && is_connected_to_roundabout self l);
    cbn [disable_uturn lookup list_lookup mbind option_bind insert list_insert];
    rewrite Hout; reflexivity.
Qed.

Lemma ascending_short (l : Intersection) : (length l <= 1)%nat -> ascending l.
Proof.
  intros Hlen i j x y Hij Hx Hy.
  apply lookup_lt_Some in Hx as Hi. apply lookup_lt_Some in Hy as Hj.
  assert (i = j) as -> by lia.
  rewrite Hx in Hy. injection Hy as ->. lra.
Qed.

Lemma ascending_before_last (first : ConnectedRoad) (interior : Intersection)
    (last : ConnectedRoad) :
  ascending (first :: interior ++ [last]) ->
  Forall (fun x => angle x <= angle last) (first :: interior).
Proof.
  intros Hasc. apply Forall_lookup_2. intros i x Hx.
  apply (Hasc i (length (first :: interior)) x last).
  - apply lookup_lt_Some in Hx. lia.
  - rewrite app_comm_cons. apply lookup_app_l_Some. exact Hx.
  - rewrite app_comm_cons. apply list_lookup_middle. reflexivity.
Qed.

Lemma merge_in_circle (a b : ConnectedRoad) :
  road_in_circle a -> road_in_circle b -> road_in_circle (merge a b).
Proof.
  intros [Ha Ha'] [Hb Hb']. unfold merge, road_in_circle.
  destruct (entry_allowed a); cbn; split; apply combineAngles_range; assumption.
Qed.

Lemma with_entry_allowed_in_circle (e : bool) (r : ConnectedRoad) :
  road_in_circle r -> road_in_circle (with_entry_allowed e r).
Proof. intros H. exact H. Qed.

(** On an ascending intersection within the circle the merges that include
    the u-turn stay within the circle, and a merged u-turn has angle 0. *)
Lemma merge_first_in_circle (node : NodeID) (l : Intersection) :
  (2 <= length l)%nat -> ascending l -> Forall road_in_circle l ->
  exists merged_first x t,
    merge_first EMPTY_NAMEID self node l = Some (merged_first, x :: t) /\
    Forall road_in_circle (x :: t) /\
    (merged_first = true -> angle x = 0) /\
    (CanMerge EMPTY_NAMEID self node l 0 (length l - 1) = Some true \/
     CanMerge EMPTY_NAMEID self node l 0 1 = Some true -> merged_first = true).
Proof.
  intros Hlen Hasc Hin.
  destruct (merge_first_cases node l Hlen)
    as [(first & interior & last & Hl & _ & Hcan & Hm)
       |[(first & second & rest & Hl & _ & Hlast & Hcan & Hm)
        |(Hlast & Hcan & Hm)]].
  - eexists _, _, _. split; [exact Hm|]. split; [|split; [reflexivity|reflexivity]].
    subst l. pose proof (ascending_before_last _ _ _ Hasc) as Hle.
    apply Forall_cons in Hin. destruct Hin as [Hfirst Hin].
    apply Forall_app in Hin. destruct Hin as [Hint Hlst].
    apply Forall_cons in Hlst. destruct Hlst as [Hlst _].
    apply Forall_cons in Hle. destruct Hle as [_ Hle].
    constructor.
    + destruct (merge_in_circle first last Hfirst Hlst) as [_ Hb].
      split; [cbn; unfold in_circle; lra|exact Hb].
    + apply Forall_fmap. rewrite Forall_forall in Hint, Hle |- *.
      intros x Hx. specialize (Hint x Hx). specialize (Hle x Hx). cbn in Hle |- *.
      destruct Hint as [Ha Hb], Hlst as [Hla _].
      split; [|exact Hb]. unfold in_circle in *. cbn. q_name. lra.
  - eexists _, _, _. split; [exact Hm|]. split; [|split; [reflexivity|reflexivity]].
    subst l. apply ascending_cons_inv in Hasc. destruct Hasc as [_ Hasc].
    apply ascending_cons_inv in Hasc. destruct Hasc as [Hle _].
    apply Forall_cons in Hin. destruct Hin as [Hfirst Hin].
    apply Forall_cons in Hin. destruct Hin as [Hsecond Hrest].
    constructor.
    + destruct (merge_in_circle first second Hfirst Hsecond) as [_ Hb].
      split; [cbn; unfold in_circle; lra|exact Hb].
    + apply Forall_fmap. rewrite Forall_forall in Hrest, Hle |- *.
      intros x Hx. specialize (Hrest x Hx). specialize (Hle x Hx). cbn in Hle |- *.
      destruct Hrest as [Ha Hb], Hsecond as [Hsa _].
      split; [|exact Hb]. unfold in_circle in *. cbn. q_name. lra.
  - destruct l as [|x t]; [cbn in Hlen; lia|].
    exists false, x, t. split; [exact Hm|]. split; [exact Hin|].
    split; [discriminate|]. intros [H|H]; congruence.
Qed.

(** ** AdjustForJoiningRoads *)

Lemma get_offset_range (lhs rhs : ConnectedRoad) :
  in_circle (angle lhs) -> in_circle (angle rhs) ->
  0 <= get_offset lhs rhs <= 90.
Proof.
  intros Hl Hr. pose proof (angularDeviation_range _ _ Hl Hr) as H.
  unfold get_offset. lra.
Qed.

Lemma get_corrected_offset_range (offset : Q) (road neighbour : ConnectedRoad) :
  in_circle (angle road) -> in_circle (angle neighbour) ->
  0 <= offset <= 90 ->
  0 <= get_corrected_offset MAXIMAL_ALLOWED_NO_TURN_DEVIATION offset road neighbour
    <= 90.
Proof.
  intros Hr Hn Ho. pose proof (angularDeviation_range _ _ Hr Hn) as H.
  unfold get_corrected_offset.
  destruct (Qlt_le_dec _ _); lra.
Qed.

Lemma get_corrected_offset_clamped (offset : Q) (road neighbour : ConnectedRoad) :
  angularDeviation (angle road) (angle neighbour)
    < offset + MAXIMAL_ALLOWED_NO_TURN_DEVIATION ->
  get_corrected_offset MAXIMAL_ALLOWED_NO_TURN_DEVIATION offset road neighbour
  = (1#2) * angularDeviation (angle road) (angle neighbour).
Proof.
  intros H. unfold get_corrected_offset.
  destruct (Qlt_le_dec _ _); [reflexivity|lra].
Qed.

Lemma get_corrected_offset_le_gap (offset : Q) (road neighbour : ConnectedRoad) :
  0 <= MAXIMAL_ALLOWED_NO_TURN_DEVIATION ->
  0 <= angularDeviation (angle road) (angle neighbour) ->
  get_corrected_offset MAXIMAL_ALLOWED_NO_TURN_DEVIATION offset road neighbour
  <= angularDeviation (angle road) (angle neighbour).
Proof.
  intros HM Hdev. unfold get_corrected_offset.
  destruct (Qlt_le_dec _ _); lra.
Qed.

Lemma adjust_at_skips (node : NodeID) (l : Intersection) (index : nat)
    (road : ConnectedRoad) :
  l !! index = Some road -> skips self node road ->
  adjust_at EMPTY_NAMEID MAXIMAL_ALLOWED_NO_TURN_DEVIATION self node l index
  = Some l.
Proof.
  intros Hroad Hskip. unfold adjust_at. rewrite Hroad. cbn [mbind option_bind].
  destruct (Nat.leb_spec (length (intersection_generator self node (eid road))) 1)
    as [Hle|Hgt]; [reflexivity|].
  destruct (Qlt_le_dec _ _) as [Hfar|Hnear]; [reflexivity|].
  destruct (Nat.leb_spec
              (GetAdjacentEdgeRange_size self (GetTarget self (eid road))) 1)
    as [Hle|Hgt']; [reflexivity|].
  destruct Hskip as [H|[H|[H|H]]]; try lia; try lra.
  unfold CanMerge.
  destruct (lookup_lt_is_Some_2 (intersection_generator self node (eid road)) 0)
    as [n0 Hn0]; [lia|].
  destruct (lookup_lt_is_Some_2 (intersection_generator self node (eid road)) 1)
    as [n1 Hn1]; [lia|].
  destruct (lookup_lt_is_Some_2 (intersection_generator self node (eid road))
              (length (intersection_generator self node (eid road)) - 1))
    as [n2 Hn2]; [lia|].
  rewrite Hn0, Hn1, Hn2. cbn [mbind option_bind].
  destruct (Nat.leb_spec (length (intersection_generator self node (eid road))) 2)
    as [_|Hgt2]; [reflexivity|lia].
Qed.

(** The three things the loop body can do at an index. *)
Lemma adjust_at_cases (node : NodeID) (l : Intersection) (index : nat)
    (road : ConnectedRoad) :
  l !! index = Some road -> (1 <= index)%nat ->
  adjust_at EMPTY_NAMEID MAXIMAL_ALLOWED_NO_TURN_DEVIATION self node l index
  = Some l
  \/ (exists next_first next_second neighbour,
        next_first ∈ intersection_generator self node (eid road) /\
        next_second ∈ intersection_generator self node (eid road) /\
        l !! ((index + 1) mod length l)%nat = Some neighbour /\
        adjust_at EMPTY_NAMEID MAXIMAL_ALLOWED_NO_TURN_DEVIATION self node l index
        = Some (<[index :=
                   adjust_road
                     (get_corrected_offset MAXIMAL_ALLOWED_NO_TURN_DEVIATION
                        (get_offset next_first next_second) road neighbour)
                     road]> l))
  \/ (exists next_first next_last neighbour,
        next_first ∈ intersection_generator self node (eid road) /\
        next_last ∈ intersection_generator self node (eid road) /\
        l !! (index - 1)%nat = Some neighbour /\
        adjust_at EMPTY_NAMEID MAXIMAL_ALLOWED_NO_TURN_DEVIATION self node l index
        = Some (<[index :=
                   adjust_road
                     (- get_corrected_offset MAXIMAL_ALLOWED_NO_TURN_DEVIATION
                          (get_offset next_first next_last) road neighbour)
                     road]> l)).
Proof.
  intros Hroad Hidx. pose proof (lookup_lt_Some _ _ _ Hroad) as Hlt.
  unfold adjust_at. rewrite Hroad. cbn [mbind option_bind].
  set (next := intersection_generator self node (eid road)).
  destruct (Nat.leb_spec (length next) 1) as [Hle|Hgt]; [left; reflexivity|].
  destruct (Qlt_le_dec _ _) as [Hfar|Hnear]; [left; reflexivity|].
  destruct (Nat.leb_spec
              (GetAdjacentEdgeRange_size self (GetTarget self (eid road))) 1)
    as [Hle|Hgt']; [left; reflexivity|].
  destruct (lookup_lt_is_Some_2 next 0) as [n0 Hn0]; [lia|].
  destruct (lookup_lt_is_Some_2 next 1) as [n1 Hn1]; [lia|].
  destruct (lookup_lt_is_Some_2 next (length next - 1)) as [n2 Hn2]; [lia|].
  destruct (CanMerge_in_range (GetTarget self (eid road)) next 0 1)
    as [[|] Hcan]; try lia; rewrite Hcan; cbn [mbind option_bind].
  - right. left.
    destruct (lookup_lt_is_Some_2 l ((index + 1) mod length l)) as [nb Hnb].
    { apply Nat.mod_upper_bound. lia. }
    rewrite Hn0, Hn1, Hnb. cbn [mbind option_bind].
    exists n0, n1, nb. repeat split; try reflexivity.
    + apply list_elem_of_lookup. eauto.
    + apply list_elem_of_lookup. eauto.
  - destruct (CanMerge_in_range (GetTarget self (eid road)) next 0
                (length next - 1))
      as [[|] Hcan']; try lia; rewrite Hcan'; cbn [mbind option_bind].
    + right. right.
      destruct (lookup_lt_is_Some_2 l (index - 1)) as [nb Hnb]; [lia|].
      rewrite Hn0, Hn2, Hnb. cbn [mbind option_bind].
      exists n0, n2, nb. repeat split; try reflexivity.
      * apply list_elem_of_lookup. eauto.
      * apply list_elem_of_lookup. eauto.
    + left. reflexivity.
Qed.

(** An invariant that every visit of an index keeps holds after the loop. *)
Lemma adjust_loop_inv (Inv : Intersection -> Prop) (node : NodeID)
    (Hstep : forall l index,
        Inv l -> (1 <= index < length l)%nat ->
        exists l',
          adjust_at EMPTY_NAMEID MAXIMAL_ALLOWED_NO_TURN_DEVIATION self node l index
          = Some l' /\ Inv l' /\ length l' = length l) :
  forall (count index : nat) (l : Intersection),
    Inv l -> (1 <= index)%nat -> (index + count <= length l)%nat ->
    exists out,
      adjust_loop EMPTY_NAMEID MAXIMAL_ALLOWED_NO_TURN_DEVIATION self node
        index count l = Some out /\
      Inv out /\ length out = length l.
Proof.
  induction count as [|count IH]; intros index l Hinv Hidx Hlen; cbn.
  - exists l. auto.
  - destruct (Hstep l index Hinv) as (l' & Hat & Hinv' & Hlen'); [lia|].
    rewrite Hat. cbn [mbind option_bind].
    destruct (IH (S index) l' Hinv') as (out & Hout & Hinvo & Hleno); [lia|lia|].
    exists out. repeat split; [exact Hout|exact Hinvo|lia].
Qed.

Lemma AdjustForJoiningRoads_inv (Inv : Intersection -> Prop) (node : NodeID)
    (Hstep : forall l index,
        Inv l -> (1 <= index < length l)%nat ->
        exists l',
          adjust_at EMPTY_NAMEID MAXIMAL_ALLOWED_NO_TURN_DEVIATION self node l index
          = Some l' /\ Inv l' /\ length l' = length l)
    (l : Intersection) :
  Inv l ->
  exists out,
    AdjustForJoiningRoads EMPTY_NAMEID MAXIMAL_ALLOWED_NO_TURN_DEVIATION self
      node l = Some out /\
    Inv out /\ length out = length l.
Proof.
  intros Hinv. unfold AdjustForJoiningRoads.
  destruct (Nat.leb_spec (length l) 1) as [Hle|Hgt].
  - exists l. auto.
  - apply (adjust_loop_inv Inv node Hstep); [exact Hinv|lia|lia].
Qed.

Lemma ascending_insert (l : Intersection) (index : nat) (r : ConnectedRoad) :
  ascending l ->
  (forall j y, (j < index)%nat -> l !! j = Some y -> angle y <= angle r) ->
  (forall j y, (index < j)%nat -> l !! j = Some y -> angle r <= angle y) ->
  ascending (<[index := r]> l).
Proof.
  intros Hasc Hlow Hhigh i j x y Hij Hx Hy.
  apply list_lookup_insert_Some in Hx. apply list_lookup_insert_Some in Hy.
  destruct Hx as [(-> & -> & Hi)|[Hi Hx]], Hy as [(Hj' & -> & Hj)|[Hj Hy]].
  - lra.
  - apply (Hhigh j y); [lia|exact Hy].
  - subst j. apply (Hlow i x); [lia|exact Hx].
  - apply (Hasc i j x y); assumption.
Qed.

Lemma adjust_road_in_circle (c : Q) (road : ConnectedRoad) :
  -90 <= c <= 90 -> road_in_circle road -> road_in_circle (adjust_road c road).
Proof.
  intros Hc [Ha Hb]. split; cbn; apply adjustAngle_range; try assumption; lra.
Qed.

(** Within the circle in, within the circle out. *)
Lemma AdjustForJoiningRoads_in_circle (node : NodeID) (l : Intersection) :
  generator_in_circle self -> Forall road_in_circle l ->
  exists out,
    AdjustForJoiningRoads EMPTY_NAMEID MAXIMAL_ALLOWED_NO_TURN_DEVIATION self
      node l = Some out /\
    Forall road_in_circle out /\ length out = length l.
Proof.
  intros Hgen. apply AdjustForJoiningRoads_inv. clear l.
  intros l index Hin Hidx.
  destruct (lookup_lt_is_Some_2 l index) as [road Hroad]; [lia|].
  pose proof (Forall_lookup_1 _ _ _ _ Hin Hroad) as Hr.
  assert (Hoffset : forall n0 n1,
             n0 ∈ intersection_generator self node (eid road) ->
             n1 ∈ intersection_generator self node (eid road) ->
             0 <= get_offset n0 n1 <= 90).
  { intros n0 n1 H0 H1. specialize (Hgen node (eid road)).
    rewrite Forall_forall in Hgen. apply get_offset_range; apply Hgen; assumption. }
  destruct (adjust_at_cases node l index road Hroad)
    as [Hsame|[(n0 & n1 & nb & H0 & H1 & Hnb & Hat)|(n0 & n1 & nb & H0 & H1 & Hnb & Hat)]];
    [lia| | |].
  - exists l. auto.
  - eexists. split; [exact Hat|]. split; [|apply length_insert].
    pose proof (Forall_lookup_1 _ _ _ _ Hin Hnb) as Hn.
    apply Forall_insert; [exact Hin|]. apply adjust_road_in_circle; [|exact Hr].
    pose proof (get_corrected_offset_range (get_offset n0 n1) road nb
                  (proj1 Hr) (proj1 Hn) (Hoffset n0 n1 H0 H1)). lra.
  - eexists. split; [exact Hat|]. split; [|apply length_insert].
    pose proof (Forall_lookup_1 _ _ _ _ Hin Hnb) as Hn.
    apply Forall_insert; [exact Hin|]. apply adjust_road_in_circle; [|exact Hr].
    pose proof (get_corrected_offset_range (get_offset n0 n1) road nb
                  (proj1 Hr) (proj1 Hn) (Hoffset n0 n1 H0 H1)). lra.
Qed.

Lemma merge_first_cons (node : NodeID) (l : Intersection) :
  (2 <= length l)%nat ->
  exists merged_first x t,
    merge_first EMPTY_NAMEID self node l = Some (merged_first, x :: t).
Proof.
  intros Hlen.
  destruct (merge_first_cases node l Hlen)
    as [(first & interior & last & _ & _ & _ & Hm)
       |[(first & second & rest & _ & _ & _ & _ & Hm)|(_ & _ & Hm)]];
    try (eexists _, _, _; exact Hm).
  destruct l as [|x t]; [cbn in Hlen; lia|]. eexists _, _, _; exact Hm.
Qed.

(** ** The claims about the angle arithmetic and [merge] *)

(** C4: the merged road keeps the edge and the entry permission of the first
    road when that one may be entered, and of the second road otherwise, so
    of the road that may be entered when exactly one may; its angle and its
    bearing are [combineAngles] of the two angles and of the two bearings;
    angles 170 and 190 merge to 180. *)
Theorem merge_semantics (first second : ConnectedRoad) :
  (entry_allowed first = true ->
   eid (merge first second) = eid first /\
   entry_allowed (merge first second) = true) /\
  (entry_allowed first = false ->
   eid (merge first second) = eid second /\
   entry_allowed (merge first second) = entry_allowed second) /\
  angle (merge first second) = combineAngles (angle first) (angle second) /\
  bearing (merge first second) = combineAngles (bearing first) (bearing second) /\
  (angle first == 170 -> angle second == 190 ->
   angle (merge first second) == 180).
Proof.
  unfold merge. split; [|split; [|split; [|split]]].
  - intros H. rewrite H. split; [reflexivity|exact H].
  - intros H. rewrite H. split; reflexivity.
  - destruct (entry_allowed first); reflexivity.
  - destruct (entry_allowed first); reflexivity.
  - intros H170 H190.
    replace (angle (with_bearing _ (with_angle _ _)))
      with (combineAngles (angle first) (angle second))
      by (destruct (entry_allowed first); reflexivity).
    q_solve.
Qed.

(** ** The claims about [CanMerge] *)

(** C5: on an intersection of three or more roads [CanMerge] is false as soon
    as one of the two roads has no name, whatever the mergable road detector
    (and every other collaborator) says. *)
Theorem CanMerge_unnamed_veto (node : NodeID) (l : Intersection) (i j : nat)
    (first second : ConnectedRoad) :
  (3 <= length l)%nat ->
  l !! i = Some first -> l !! j = Some second ->
  name_id (GetEdgeData self (eid first)) = EMPTY_NAMEID \/
  name_id (GetEdgeData self (eid second)) = EMPTY_NAMEID ->
  CanMerge EMPTY_NAMEID self node l i j = Some false.
Proof.
  intros Hlen Hi Hj Hname. unfold CanMerge. rewrite Hi, Hj.
  cbn [mbind option_bind]. f_equal.
  destruct (length l <=? 2)%nat; [reflexivity|].
  destruct Hname as [-> | ->]; rewrite N.eqb_refl;
    [reflexivity|rewrite orb_true_r; reflexivity].
Qed.

(** C10: [CanMerge] subscripts the intersection with both indices before it
    looks at the degree, so it is defined exactly when both indices are below
    the size: on an intersection of at most two roads an index in range gives
    false, and an index out of range is an out of range access there too. *)
Theorem CanMerge_index_precondition (node : NodeID) (l : Intersection)
    (i j : nat) :
  ((i < length l)%nat /\ (j < length l)%nat <->
   exists b, CanMerge EMPTY_NAMEID self node l i j = Some b) /\
  ((length l <= 2)%nat -> (i < length l)%nat -> (j < length l)%nat ->
   CanMerge EMPTY_NAMEID self node l i j = Some false) /\
  ((length l <= i)%nat \/ (length l <= j)%nat ->
   CanMerge EMPTY_NAMEID self node l i j = None).
Proof.
  assert (Hnone : (length l <= i)%nat \/ (length l <= j)%nat ->
                  CanMerge EMPTY_NAMEID self node l i j = None).
  { intros Hout. unfold CanMerge.
    destruct (l !! i) as [x|] eqn:Hi; [|reflexivity].
    destruct (l !! j) as [y|] eqn:Hj; [|reflexivity].
    apply lookup_lt_Some in Hi. apply lookup_lt_Some in Hj. lia. }
  split; [split|split].
  - intros [Hi Hj]. apply CanMerge_in_range; assumption.
  - intros [b Hb].
    destruct (decide (i < length l)%nat) as [Hi|Hi];
      [|rewrite Hnone in Hb by lia; discriminate].
    destruct (decide (j < length l)%nat) as [Hj|Hj];
      [|rewrite Hnone in Hb by lia; discriminate].
    split; assumption.
  - intros Hlen Hi Hj. unfold CanMerge.
    destruct (lookup_lt_is_Some_2 l i Hi) as [x ->].
    destruct (lookup_lt_is_Some_2 l j Hj) as [y ->].
    cbn [mbind option_bind].
    destruct (Nat.leb_spec (length l) 2) as [_|Hgt]; [reflexivity|lia].
  - exact Hnone.
Qed.

(** ** The claims about [MergeSegregatedRoads] *)

(** C9, as amended: [MergeSegregatedRoads] returns, and what it returns is
    ascending by angle: no angle is greater than the angle of a later entry
    (two entries may share an angle). *)
Theorem MergeSegregatedRoads_ascending (node : NodeID) (l : Intersection) :
  exists out,
    MergeSegregatedRoads EMPTY_NAMEID self node l = Some out /\ ascending out.
Proof.
  destruct (Nat.leb_spec (length l) 1) as [Hle|Hgt].
  - exists l. split; [|apply ascending_short; exact Hle].
    unfold MergeSegregatedRoads.
    destruct (Nat.leb_spec (length l) 1); [reflexivity|lia].
  - destruct (merge_first_cons node l) as (b & x & t & Hfirst); [lia|].
    destruct (MergeSegregatedRoads_after_first (fun _ => True) (fun _ _ _ _ => I)
                (fun _ _ => I) node l b x t)
      as (t' & _ & Hout & _); [lia|exact Hfirst| |].
    + apply Forall_true. intros _. exact I.
    + eexists. split; [exact Hout|].
      apply StronglySorted_ascending, std_sort_sorted.
Qed.

(** C3: when [CanMerge] holds for entry 0 and the last entry, every entry
    strictly between them keeps its edge, bearing and entry permission and
    has its angle raised by [(360 - angle last) / 2]; entry 0 becomes the
    merge of entry 0 and the last entry (the edge of entry 0 when that may
    be entered and of the last entry otherwise, the bearing
    [combineAngles] of the two bearings) with angle 0; the last entry is
    dropped.  This is the whole effect of the merges that include the u-turn,
    whatever [CanMerge] says about entries 0 and 1.  The rest of
    [MergeSegregatedRoads] (the roundabout step, which withdraws the entry
    permission of entry 0, the general pass and the sort) runs on that
    intersection. *)
Theorem MergeSegregatedRoads_merges_last (node : NodeID) (l : Intersection) :
  CanMerge EMPTY_NAMEID self node l 0 (length l - 1) = Some true ->
  exists first interior last,
    l = first :: interior ++ [last] /\
    merge_first EMPTY_NAMEID self node l =
    Some (true,
          mkConnectedRoad (if entry_allowed first then eid first else eid last)
            0 (combineAngles (bearing first) (bearing last))
            (entry_allowed first || entry_allowed last)
            :: ((fun road =>
                   mkConnectedRoad (eid road)
                     (angle road + (360 - angle last) / 2)
                     (bearing road) (entry_allowed road)) <$> interior)) /\
    exists rest,
      merge_loop EMPTY_NAMEID self node
        (mkConnectedRoad (if entry_allowed first then eid first else eid last)
           0 (combineAngles (bearing first) (bearing last))
           (if is_connected_to_roundabout self l then false
            else entry_allowed first || entry_allowed last)
           :: ((fun road =>
                  mkConnectedRoad (eid road)
                    (angle road + (360 - angle last) / 2)
                    (bearing road) (entry_allowed road)) <$> interior)) 2
      = Some (mkConnectedRoad
                (if entry_allowed first then eid first else eid last)
                0 (combineAngles (bearing first) (bearing last))
                (if is_connected_to_roundabout self l then false
                 else entry_allowed first || entry_allowed last) :: rest) /\
      MergeSegregatedRoads EMPTY_NAMEID self node l
      = Some (std_sort
                (mkConnectedRoad
                   (if entry_allowed first then eid first else eid last)
                   0 (combineAngles (bearing first) (bearing last))
                   (if is_connected_to_roundabout self l then false
                    else entry_allowed first || entry_allowed last) :: rest)).
Proof.
  intros Hcan. pose proof (CanMerge_true_size _ _ _ _ Hcan) as Hlen.
  destruct (split_first_last l) as (first & interior & last & Hl); [lia|].
  exists first, interior, last. split; [exact Hl|].
  pose proof (merge_first_last node l first interior last Hl Hcan) as Hfirst.
  split; [rewrite Hfirst, merged_uturn_fields; reflexivity|].
  destruct (MergeSegregatedRoads_after_first (fun _ => True) (fun _ _ _ _ => I)
              (fun _ _ => I) node l _ _ _ ltac:(lia) Hfirst)
    as (rest & Hloop & Hout & _).
  - apply Forall_true. intros _. exact I.
  - exists rest. cbn [andb] in Hloop, Hout.
    rewrite merged_uturn_fields in Hloop, Hout.
    destruct (is_connected_to_roundabout self l); split; assumption.
Qed.

(** C1, as amended: on an ascending intersection whose angles and bearings
    lie in [[0,360]], with a generator whose angles lie in [[0,360]],
    [MergeSegregatedRoads], [AdjustForJoiningRoads] and their composition
    return intersections whose angles and bearings lie in [[0,360]]: 360
    itself is not excluded. *)
Theorem normalize_in_circle (node : NodeID) (l : Intersection) :
  generator_in_circle self -> ascending l -> Forall road_in_circle l ->
  (exists merged,
      MergeSegregatedRoads EMPTY_NAMEID self node l = Some merged /\
      Forall road_in_circle merged) /\
  (exists adjusted,
      AdjustForJoiningRoads EMPTY_NAMEID MAXIMAL_ALLOWED_NO_TURN_DEVIATION self
        node l = Some adjusted /\
      Forall road_in_circle adjusted) /\
  (exists out,
      normalize EMPTY_NAMEID MAXIMAL_ALLOWED_NO_TURN_DEVIATION self node l
      = Some out /\
      Forall road_in_circle out).
Proof.
  intros Hgen Hasc Hin.
  assert (Hmerge : exists merged,
             MergeSegregatedRoads EMPTY_NAMEID self node l = Some merged /\
             Forall road_in_circle merged).
  { destruct (Nat.leb_spec (length l) 1) as [Hle|Hgt].
    - exists l. split; [|exact Hin]. unfold MergeSegregatedRoads.
      destruct (Nat.leb_spec (length l) 1); [reflexivity|lia].
    - destruct (merge_first_in_circle node l) as (b & x & t & Hfirst & Hxt & _);
        [lia|exact Hasc|exact Hin|].
      destruct (MergeSegregatedRoads_after_first road_in_circle merge_in_circle
                  (with_entry_allowed_in_circle false) node l _ _ _ ltac:(lia)
                  Hfirst Hxt)
        as (t' & _ & Hout & Hcircle & _).
      eexists. split; [exact Hout|]. apply std_sort_Forall. exact Hcircle. }
  split; [exact Hmerge|]. split.
  - destruct (AdjustForJoiningRoads_in_circle node l Hgen Hin)
      as (out & Hout & Hcircle & _).
    exists out. split; assumption.
  - destruct Hmerge as (merged & Hmerged & Hcircle).
    destruct (AdjustForJoiningRoads_in_circle node merged Hgen Hcircle)
      as (out & Hout & Hcircle' & _).
    exists out. split; [|exact Hcircle'].
    unfold normalize. rewrite Hmerged. exact Hout.
Qed.

(** ** The claims about [AdjustForJoiningRoads] *)

(** C8: a candidate at an index of 1 or more comes out of
    [AdjustForJoiningRoads] as it went in when the next intersection along
    its edge has at most one road, when the next node is more than 30 away,
    when the next node has at most one adjacent edge, or when the next
    intersection has at most one road besides its u-turn; the function
    returns in each of these cases. *)
Theorem AdjustForJoiningRoads_skips (node : NodeID) (l : Intersection)
    (index : nat) (road : ConnectedRoad) :
  (1 <= index)%nat -> l !! index = Some road -> skips self node road ->
  exists out,
    AdjustForJoiningRoads EMPTY_NAMEID MAXIMAL_ALLOWED_NO_TURN_DEVIATION self
      node l = Some out /\
    out !! index = Some road /\ length out = length l.
Proof.
  intros Hidx Hroad Hskip.
  apply (AdjustForJoiningRoads_inv (fun l' => l' !! index = Some road));
    [|exact Hroad].
  clear l Hroad. intros l k Hroad Hk.
  destruct (decide (k = index)) as [->|Hne].
  - exists l. split; [|split; [exact Hroad|reflexivity]].
    apply adjust_at_skips with (road := road); assumption.
  - destruct (lookup_lt_is_Some_2 l k) as [other Hother]; [lia|].
    destruct (adjust_at_cases node l k other Hother)
      as [Hsame|[(n0 & n1 & nb & _ & _ & _ & Hat)|(n0 & n1 & nb & _ & _ & _ & Hat)]];
      [lia| | |].
    + exists l. auto.
    + eexists. split; [exact Hat|]. split; [|apply length_insert].
      rewrite list_lookup_insert_ne by exact Hne. exact Hroad.
    + eexists. split; [exact Hat|]. split; [|apply length_insert].
      rewrite list_lookup_insert_ne by exact Hne. exact Hroad.
Qed.

(** One visit of an index keeps the intersection well ordered: the road
    moves by at most the angular deviation to the neighbour it is compared
    with, as that neighbour stands at the time of the visit. *)
Lemma adjust_at_well_ordered (node : NodeID) (l : Intersection) (index : nat) :
  0 <= MAXIMAL_ALLOWED_NO_TURN_DEVIATION -> generator_in_circle self ->
  well_ordered l -> (1 <= index < length l)%nat ->
  exists l',
    adjust_at EMPTY_NAMEID MAXIMAL_ALLOWED_NO_TURN_DEVIATION self node l index
    = Some l' /\ well_ordered l' /\ length l' = length l.
Proof.
  intros HM Hgen (Hasc & Hin & uturn & Huturn & Hzero) Hidx.
  destruct (lookup_lt_is_Some_2 l index) as [road Hroad]; [lia|].
  pose proof (Forall_lookup_1 _ _ _ _ Hin Hroad) as Hr. cbn in Hr.
  assert (Hoffset : forall n0 n1,
             n0 ∈ intersection_generator self node (eid road) ->
             n1 ∈ intersection_generator self node (eid road) ->
             0 <= get_offset n0 n1 <= 90).
  { intros n0 n1 H0 H1. specialize (Hgen node (eid road)).
    rewrite Forall_forall in Hgen. apply get_offset_range; apply Hgen; assumption. }
  destruct (adjust_at_cases node l index road Hroad)
    as [Hsame|[(n0 & n1 & nb & H0 & H1 & Hnb & Hat)|(n0 & n1 & nb & H0 & H1 & Hnb & Hat)]];
    [lia| | |].
  - exists l. split; [exact Hsame|]. split; [|reflexivity].
    split; [exact Hasc|]. split; [exact Hin|]. exists uturn. auto.
  - (* towards the next road *)
    pose proof (Forall_lookup_1 _ _ _ _ Hin Hnb) as Hn. cbn in Hn.
    pose proof (get_corrected_offset_range (get_offset n0 n1) road nb Hr Hn
                  (Hoffset n0 n1 H0 H1)) as Hc.
    pose proof (angularDeviation_range _ _ Hr Hn) as Hdev.
    pose proof (get_corrected_offset_le_gap (get_offset n0 n1) road nb HM
                  (proj1 Hdev)) as Hgap.
    set (c := get_corrected_offset MAXIMAL_ALLOWED_NO_TURN_DEVIATION
                (get_offset n0 n1) road nb) in *.
    assert (Hroom : angle road + c <= 360 /\
                    forall j y, (index < j)%nat -> l !! j = Some y ->
                                angle road + c <= angle y).
    { destruct (decide (index + 1 < length l)%nat) as [Hmid|Hend].
      - rewrite Nat.mod_small in Hnb by exact Hmid.
        pose proof (Hasc index (index + 1)%nat road nb ltac:(lia) Hroad Hnb) as Hle.
        destruct (angularDeviation_le_gap _ _ Hle) as [Hd _].
        split; [unfold in_circle in Hn; lra|].
        intros j y Hj Hy.
        pose proof (Hasc (index + 1)%nat j nb y ltac:(lia) Hnb Hy). lra.
      - replace (index + 1)%nat with (length l) in Hnb by lia.
        rewrite Nat.Div0.mod_same in Hnb. rewrite Huturn in Hnb.
        injection Hnb as <-.
        assert (angularDeviation (angle road) (angle uturn) <= 360 - angle road)
          by (unfold in_circle in *; clear Hgap Hdev; q_solve).
        split; [lra|].
        intros j y Hj Hy. apply lookup_lt_Some in Hy. lia. }
    destruct Hroom as [Htop Hhigh].
    assert (Hnew : adjustAngle (angle road) c == angle road + c)
      by (apply adjustAngle_no_wrap; unfold in_circle in Hr; lra).
    eexists. split; [exact Hat|]. split; [|apply length_insert].
    split; [|split].
    + apply ascending_insert; [exact Hasc| |]; cbn; intros j y Hj Hy.
      * pose proof (Hasc j index y road ltac:(lia) Hy Hroad). lra.
      * specialize (Hhigh j y Hj Hy). lra.
    + apply Forall_insert; [exact Hin|]. cbn. unfold in_circle in *. lra.
    + exists uturn. split; [|exact Hzero].
      rewrite list_lookup_insert_ne by lia. exact Huturn.
  - (* towards the previous road *)
    pose proof (Forall_lookup_1 _ _ _ _ Hin Hnb) as Hn. cbn in Hn.
    pose proof (get_corrected_offset_range (get_offset n0 n1) road nb Hr Hn
                  (Hoffset n0 n1 H0 H1)) as Hc.
    pose proof (angularDeviation_range _ _ Hr Hn) as Hdev.
    pose proof (get_corrected_offset_le_gap (get_offset n0 n1) road nb HM
                  (proj1 Hdev)) as Hgap.
    set (c := get_corrected_offset MAXIMAL_ALLOWED_NO_TURN_DEVIATION
                (get_offset n0 n1) road nb) in *.
    pose proof (Hasc (index - 1)%nat index nb road ltac:(lia) Hnb Hroad) as Hle.
    destruct (angularDeviation_le_gap _ _ Hle) as [_ Hd].
    assert (Hnew : adjustAngle (angle road) (- c) == angle road - c)
      by (rewrite adjustAngle_no_wrap; unfold in_circle in *; lra).
    eexists. split; [exact Hat|]. split; [|apply length_insert].
    split; [|split].
    + apply ascending_insert; [exact Hasc| |]; cbn; intros j y Hj Hy.
      * pose proof (Hasc j (index - 1)%nat y nb ltac:(lia) Hy Hnb). lra.
      * pose proof (Hasc index j road y ltac:(lia) Hroad Hy). lra.
    + apply Forall_insert; [exact Hin|]. cbn. unfold in_circle in *. lra.
    + exists uturn. split; [|exact Hzero].
      rewrite list_lookup_insert_ne by lia. exact Huturn.
Qed.

(** C7, as amended: the corrected offset is at most the angular deviation
    between the road and the neighbour it is compared with, and half of it
    when the offset plus the guard margin exceeds it; the neighbour is read
    as it stands when the road is adjusted, so the previous road may already
    have been moved.  With that, [AdjustForJoiningRoads] keeps a well ordered
    intersection well ordered: no turn jumps over another. *)
Theorem AdjustForJoiningRoads_keeps_order (node : NodeID) (l : Intersection) :
  0 <= MAXIMAL_ALLOWED_NO_TURN_DEVIATION -> generator_in_circle self ->
  well_ordered l ->
  (forall offset road neighbour,
      in_circle (angle road) -> in_circle (angle neighbour) ->
      get_corrected_offset MAXIMAL_ALLOWED_NO_TURN_DEVIATION offset road neighbour
      <= angularDeviation (angle road) (angle neighbour) /\
      (angularDeviation (angle road) (angle neighbour)
         < offset + MAXIMAL_ALLOWED_NO_TURN_DEVIATION ->
       get_corrected_offset MAXIMAL_ALLOWED_NO_TURN_DEVIATION offset road neighbour
       = (1#2) * angularDeviation (angle road) (angle neighbour))) /\
  exists out,
    AdjustForJoiningRoads EMPTY_NAMEID MAXIMAL_ALLOWED_NO_TURN_DEVIATION self
      node l = Some out /\
    well_ordered out /\ length out = length l.
Proof.
  intros HM Hgen Hwell. split.
  - intros offset road neighbour Hr Hn. split.
    + apply get_corrected_offset_le_gap; [exact HM|].
      apply angularDeviation_range; assumption.
    + apply get_corrected_offset_clamped.
  - apply AdjustForJoiningRoads_inv; [|exact Hwell].
    intros l' index Hwell' Hidx.
    apply adjust_at_well_ordered; assumption.
Qed.

End NormalizerProperties.

(** * The claims on concrete intersections *)

Import Example.

Ltac concrete_sorted :=
  apply StronglySorted_ascending;
  repeat (constructor; cbn [angle]); try lra.

Ltac concrete_circle :=
  repeat (constructor; cbn [angle bearing]);
  unfold road_in_circle, in_circle; cbn [angle bearing]; try lra.

Lemma joining_in_circle : generator_in_circle joining.
Proof.
  intros node edge. cbn. unfold joining_generator.
  destruct (edge =? 1)%N; [concrete_circle|].
  destruct (edge =? 2)%N; concrete_circle.
Qed.

(** C1, the claim as stated fails: roads 1 and 2 of [northbound], with
    bearings 350 and 10, both below 360, merge into a road whose bearing is
    360; [combineAngles] and [adjustAngle] return a sum of exactly 360 as it
    is. *)
Lemma MergeSegregatedRoads_reaches_360 :
  Forall (fun r => (0 <= angle r /\ angle r < 360) /\
                   (0 <= bearing r /\ bearing r < 360)) northbound /\
  strictly_ascending northbound /\
  (exists uturn merged,
      MergeSegregatedRoads EMPTY_NAMEID merges_one_two 0%N northbound
      = Some [uturn; merged] /\
      angle merged == 180 /\ bearing merged == 360 /\
      ~ bearing merged < 360) /\
  combineAngles 90 270 == 360 /\
  adjustAngle 350 10 == 360.
Proof.
  split; [|split; [|split; [|split]]].
  - repeat (constructor; cbn [angle bearing]); lra.
  - intros i x y Hx Hy.
    destruct i as [|[|[|i]]]; cbn in Hx, Hy;
      try discriminate; injection Hx as <-; injection Hy as <-; cbn; lra.
  - eexists _, _. split; [vm_compute; reflexivity|].
    cbn [angle bearing]. repeat split; try reflexivity; lra.
  - reflexivity.
  - reflexivity.
Qed.

(** C1, witness: the crossing, with the close intersections of [joining]
    ahead. *)
Lemma normalize_in_circle_witness :
  (exists merged,
      MergeSegregatedRoads EMPTY_NAMEID joining 0%N close_turns = Some merged /\
      Forall road_in_circle merged) /\
  (exists adjusted,
      AdjustForJoiningRoads EMPTY_NAMEID MAXIMAL_ALLOWED_NO_TURN_DEVIATION
        joining 0%N close_turns = Some adjusted /\
      Forall road_in_circle adjusted) /\
  (exists out,
      normalize EMPTY_NAMEID MAXIMAL_ALLOWED_NO_TURN_DEVIATION joining 0%N
        close_turns = Some out /\
      Forall road_in_circle out).
Proof.
  apply (normalize_in_circle EMPTY_NAMEID MAXIMAL_ALLOWED_NO_TURN_DEVIATION
           joining 0%N close_turns).
  - exact joining_in_circle.
  - unfold close_turns. concrete_sorted.
  - unfold close_turns. concrete_circle.
Defined.

(** C3, witness: on the crossing every pair is mergable, entries 0 and 1
    too, and the merge with the last entry is the one that is made: roads 1
    and 2 are raised by 45 to 135 and 225. *)
Lemma MergeSegregatedRoads_merges_last_witness :
  CanMerge EMPTY_NAMEID all_mergable 0%N crossing 0 1 = Some true /\
  exists first interior last,
    crossing = first :: interior ++ [last] /\
    merge_first EMPTY_NAMEID all_mergable 0%N crossing =
    Some (true,
          mkConnectedRoad (if entry_allowed first then eid first else eid last)
            0 (combineAngles (bearing first) (bearing last))
            (entry_allowed first || entry_allowed last)
            :: ((fun road =>
                   mkConnectedRoad (eid road)
                     (angle road + (360 - angle last) / 2)
                     (bearing road) (entry_allowed road)) <$> interior)) /\
    exists rest,
      merge_loop EMPTY_NAMEID all_mergable 0%N
        (mkConnectedRoad (if entry_allowed first then eid first else eid last)
           0 (combineAngles (bearing first) (bearing last))
           (if is_connected_to_roundabout all_mergable crossing then false
            else entry_allowed first || entry_allowed last)
           :: ((fun road =>
                  mkConnectedRoad (eid road)
                    (angle road + (360 - angle last) / 2)
                    (bearing road) (entry_allowed road)) <$> interior)) 2
      = Some (mkConnectedRoad
                (if entry_allowed first then eid first else eid last)
                0 (combineAngles (bearing first) (bearing last))
                (if is_connected_to_roundabout all_mergable crossing then false
                 else entry_allowed first || entry_allowed last) :: rest) /\
      MergeSegregatedRoads EMPTY_NAMEID all_mergable 0%N crossing
      = Some (std_sort
                (mkConnectedRoad
                   (if entry_allowed first then eid first else eid last)
                   0 (combineAngles (bearing first) (bearing last))
                   (if is_connected_to_roundabout all_mergable crossing
                    then false
                    else entry_allowed first || entry_allowed last) :: rest)).
Proof.
  split; [reflexivity|].
  apply (MergeSegregatedRoads_merges_last EMPTY_NAMEID all_mergable 0%N crossing).
  reflexivity.
Defined.

(** C5, witness: road 1 of the crossing has no name and the detector accepts
    every pair. *)
Lemma CanMerge_unnamed_veto_witness :
  CanMergeRoad unnamed_one 0%N
    (mkConnectedRoad 1%N 90 270 false) (mkConnectedRoad 2%N 180 0 true) = true /\
  CanMerge EMPTY_NAMEID unnamed_one 0%N crossing 1 2 = Some false.
Proof.
  split; [reflexivity|].
  apply (CanMerge_unnamed_veto EMPTY_NAMEID unnamed_one 0%N crossing 1 2
           (mkConnectedRoad 1%N 90 270 false) (mkConnectedRoad 2%N 180 0 true)).
  - cbn. lia.
  - reflexivity.
  - reflexivity.
  - left. reflexivity.
Defined.

(** C7, the claim as stated fails: road 1 of [close_turns] is moved from 100
    to 60, towards the u-turn; road 2 is then compared with road 1 where it
    now stands and is moved from 110 to 80, past 100, the angle road 1 had
    at first. *)
Lemma AdjustForJoiningRoads_passes_original_angle :
  well_ordered close_turns /\
  exists neighbour road uturn' neighbour' road',
    close_turns !! 1%nat = Some neighbour /\
    close_turns !! 2%nat = Some road /\
    AdjustForJoiningRoads EMPTY_NAMEID MAXIMAL_ALLOWED_NO_TURN_DEVIATION
      joining 0%N close_turns = Some [uturn'; neighbour'; road'] /\
    angle neighbour < angle road /\
    angle road' < angle neighbour /\
    angle neighbour' == 60 /\ angle road' == 80.
Proof.
  split.
  - split; [|split].
    + unfold close_turns. concrete_sorted.
    + unfold close_turns. repeat (constructor; cbn [angle]);
        unfold in_circle; lra.
    + eexists. split; [reflexivity|]. reflexivity.
  - eexists _, _, _, _, _.
    split; [reflexivity|]. split; [reflexivity|].
    split; [vm_compute; reflexivity|].
    cbn [angle]. repeat split; try reflexivity.
Qed.

(** C7, witness: the same intersection stays well ordered. *)
Lemma AdjustForJoiningRoads_keeps_order_witness :
  (forall offset road neighbour,
      in_circle (angle road) -> in_circle (angle neighbour) ->
      get_corrected_offset MAXIMAL_ALLOWED_NO_TURN_DEVIATION offset road neighbour
      <= angularDeviation (angle road) (angle neighbour) /\
      (angularDeviation (angle road) (angle neighbour)
         < offset + MAXIMAL_ALLOWED_NO_TURN_DEVIATION ->
       get_corrected_offset MAXIMAL_ALLOWED_NO_TURN_DEVIATION offset road neighbour
       = (1#2) * angularDeviation (angle road) (angle neighbour))) /\
  exists out,
    AdjustForJoiningRoads EMPTY_NAMEID MAXIMAL_ALLOWED_NO_TURN_DEVIATION
      joining 0%N close_turns = Some out /\
    well_ordered out /\ length out = length close_turns.
Proof.
  apply (AdjustForJoiningRoads_keeps_order EMPTY_NAMEID
           MAXIMAL_ALLOWED_NO_TURN_DEVIATION joining 0%N close_turns).
  - unfold MAXIMAL_ALLOWED_NO_TURN_DEVIATION. lra.
  - exact joining_in_circle.
  - split; [|split].
    + unfold close_turns. concrete_sorted.
    + unfold close_turns. repeat (constructor; cbn [angle]);
        unfold in_circle; lra.
    + eexists. split; [reflexivity|]. reflexivity.
Defined.

(** C8, witness: edge 5 leads to an empty intersection, and road 1 of
    [dead_end_turn] comes out as it went in, while road 2 is moved. *)
Lemma AdjustForJoiningRoads_skips_witness :
  exists out,
    AdjustForJoiningRoads EMPTY_NAMEID MAXIMAL_ALLOWED_NO_TURN_DEVIATION
      joining 0%N dead_end_turn = Some out /\
    out !! 1%nat = Some (mkConnectedRoad 5%N 100 280 true) /\
    length out = length dead_end_turn.
Proof.
  apply (AdjustForJoiningRoads_skips EMPTY_NAMEID
           MAXIMAL_ALLOWED_NO_TURN_DEVIATION joining 0%N dead_end_turn 1
           (mkConnectedRoad 5%N 100 280 true)).
  - lia.
  - reflexivity.
  - left. cbn. lia.
Defined.

(** C9, the claim as stated fails: the angles of [collapsing] are strictly
    ascending, roads 2 and 3, at 100 and 300, merge to 20, the angle of
    road 1, and the result has two roads at 20. *)
Lemma MergeSegregatedRoads_repeats_angle :
  strictly_ascending collapsing /\
  exists uturn first second,
    MergeSegregatedRoads EMPTY_NAMEID merges_two_three 0%N collapsing
    = Some [uturn; first; second] /\
    angle first == angle second /\
    ~ strictly_ascending [uturn; first; second].
Proof.
  split.
  - intros i x y Hx Hy.
    destruct i as [|[|[|[|i]]]]; cbn in Hx, Hy;
      try discriminate; injection Hx as <-; injection Hy as <-; cbn; lra.
  - eexists _, _, _. split; [vm_compute; reflexivity|].
    split; [reflexivity|].
    intros Hstrict. specialize (Hstrict 1%nat _ _ eq_refl eq_refl).
    cbn in Hstrict. lra.
Qed.

(** * Further properties of the normaliser *)

(** ** The sort *)

Lemma sort_insert_length (x : ConnectedRoad) (l : Intersection) :
  length (sort_insert x l) = S (length l).
Proof.
  induction l as [|y l IH]; cbn; [reflexivity|].
  destruct (compareByAngle y x); cbn; [rewrite IH|]; reflexivity.
Qed.

Lemma std_sort_length (l : Intersection) : length (std_sort l) = length l.
Proof.
  induction l as [|x l IH]; cbn; [reflexivity|].
  rewrite sort_insert_length, IH. reflexivity.
Qed.

(** Sorting an ascending intersection moves nothing. *)
Lemma std_sort_ascending (l : Intersection) : ascending l -> std_sort l = l.
Proof.
  induction l as [|x l IH]; intros Hasc; [reflexivity|].
  apply ascending_cons_inv in Hasc. destruct Hasc as [Hx Hl].
  rewrite std_sort_head by exact Hx. rewrite IH by exact Hl. reflexivity.
Qed.


(** [std_sort] is one of the orders [std::sort] may leave. *)
Lemma sort_insert_Permutation (x : ConnectedRoad) (l : Intersection) :
  Permutation (x :: l) (sort_insert x l).
Proof.
  induction l as [|y l IH]; cbn; [reflexivity|].
  destruct (compareByAngle y x); [|reflexivity].
  rewrite perm_swap. apply perm_skip. exact IH.
Qed.

Lemma std_sort_outcome (l : Intersection) : sort_outcome l (std_sort l).
Proof.
  split; [|apply StronglySorted_ascending, std_sort_sorted].
  induction l as [|x l IH]; cbn; [reflexivity|].
  rewrite <- sort_insert_Permutation. apply perm_skip. exact IH.
Qed.

(** An entry below every other entry is in front in every order that
    [std::sort] may leave. *)
Lemma sort_outcome_head (x : ConnectedRoad) (t out : Intersection) :
  sort_outcome (x :: t) out ->
  Forall (fun y => angle x < angle y) t ->
  exists rest, out = x :: rest.
Proof.
  intros [Hperm Hasc] Hbelow.
  destruct out as [|h rest].
  { apply Permutation_sym, Permutation_nil in Hperm. discriminate. }
  exists rest. f_equal.
  assert (Hh : h ∈ x :: t).
  { rewrite Hperm. apply list_elem_of_here. }
  assert (Hx : x ∈ h :: rest).
  { rewrite <- Hperm. apply list_elem_of_here. }
  apply elem_of_cons in Hh. destruct Hh as [Hh|Hh]; [exact Hh|].
  rewrite Forall_forall in Hbelow. specialize (Hbelow h Hh).
  apply list_elem_of_lookup in Hx. destruct Hx as [j Hj].
  pose proof (Hasc 0%nat j h x ltac:(lia) eq_refl Hj). lra.
Qed.

Lemma strictly_ascending_sorted (l : Intersection) :
  strictly_ascending l -> StronglySorted (fun x y => angle x < angle y) l.
Proof.
  induction l as [|x l IH]; intros Hstrict; [constructor|].
  assert (Hl : strictly_ascending l).
  { intros i a b Ha Hb. exact (Hstrict (S i) a b Ha Hb). }
  specialize (IH Hl). constructor; [exact IH|].
  destruct l as [|y l]; [constructor|].
  pose proof (Hstrict 0%nat x y eq_refl eq_refl) as Hxy.
  constructor; [exact Hxy|].
  apply StronglySorted_inv in IH. destruct IH as [_ Hy].
  eapply Forall_impl; [exact Hy|]. cbn. intros z Hz. lra.
Qed.

Lemma strictly_ascending_ascending (l : Intersection) :
  strictly_ascending l -> ascending l.
Proof.
  intros Hstrict. apply StronglySorted_ascending.
  apply strictly_ascending_sorted in Hstrict.
  induction Hstrict as [|x l Hl IH Hx]; constructor; [exact IH|].
  eapply Forall_impl; [exact Hx|]. cbn. intros y Hy. lra.
Qed.

(** With no two angles equal there is one order only. *)
Lemma sort_outcome_unique (l out : Intersection) :
  strictly_ascending l -> sort_outcome l out -> out = l.
Proof.
  intros Hstrict. apply strictly_ascending_sorted in Hstrict.
  revert out. induction Hstrict as [|x l Hl IH Hx]; intros out Hout.
  - destruct Hout as [Hperm _]. apply Permutation_nil in Hperm. exact Hperm.
  - destruct (sort_outcome_head x l out Hout Hx) as [rest ->].
    f_equal. apply IH. destruct Hout as [Hperm Hasc]. split.
    + exact (Permutation_cons_inv Hperm).
    + apply ascending_cons_inv in Hasc. tauto.
Qed.

Section NormalizerCoverage.

Variable EMPTY_NAMEID : NameID.
Variable MAXIMAL_ALLOWED_NO_TURN_DEVIATION : Q.
Variable self : IntersectionNormalizer.

(** ** The general pass, by an invariant of the whole intersection *)

Lemma merge_loop_list_inv (Inv : Intersection -> Prop) (node : NodeID)
    (Hstep : forall l index right_road road,
        Inv l -> (2 <= index < length l)%nat ->
        CanMerge EMPTY_NAMEID self node l index (index - 1) = Some true ->
        l !! (index - 1)%nat = Some right_road -> l !! index = Some road ->
        Inv (delete index (<[(index - 1)%nat := merge right_road road]> l))) :
  forall (n : nat) (l : Intersection) (index : nat),
    (length l - index <= n)%nat -> (2 <= index)%nat -> Inv l ->
    exists out,
      merge_loop EMPTY_NAMEID self node l index = Some out /\ Inv out.
Proof.
  induction n as [|n IH]; intros l index Hn Hidx Hinv;
    rewrite merge_loop_eq;
    destruct (Nat.ltb_spec index (length l)) as [Hlt|Hge];
    try lia; try (exists l; split; [reflexivity|exact Hinv]).
  rewrite (getRight_pred l index) by lia.
  destruct (CanMerge_in_range EMPTY_NAMEID self node l index (index - 1))
    as [[|] Hcan]; try lia; rewrite Hcan.
  - destruct (lookup_lt_is_Some_2 l (index - 1)) as [right_road Hr]; [lia|].
    destruct (lookup_lt_is_Some_2 l index Hlt) as [road Hc].
    rewrite Hr, Hc. apply IH; [|exact Hidx|].
    + rewrite length_delete, length_insert; [lia|].
      apply lookup_lt_is_Some_2. rewrite length_insert. exact Hlt.
    + apply Hstep; try assumption. lia.
  - apply IH; [lia|lia|exact Hinv].
Qed.

(** ** The merges that include the u-turn, by size *)

Lemma merge_first_length (node : NodeID) (l : Intersection) :
  (2 <= length l)%nat ->
  exists merged_first x t,
    merge_first EMPTY_NAMEID self node l = Some (merged_first, x :: t) /\
    (merged_first = true ->
     (3 <= length l)%nat /\ length (x :: t) = (length l - 1)%nat) /\
    (merged_first = false -> x :: t = l) /\
    (CanMerge EMPTY_NAMEID self node l 0 (length l - 1) = Some true \/
     CanMerge EMPTY_NAMEID self node l 0 1 = Some true -> merged_first = true).
Proof.
  intros Hlen.
  destruct (merge_first_cases EMPTY_NAMEID self node l Hlen)
    as [(first & interior & last & Hl & _ & Hcan & Hm)
       |[(first & second & rest & Hl & _ & Hlast & Hcan & Hm)
        |(Hlast & Hcan & Hm)]].
  - eexists _, _, _. split; [exact Hm|].
    split; [|split; [discriminate|reflexivity]].
    intros _. split; [exact (CanMerge_true_size _ _ _ _ _ _ Hcan)|].
    subst l. cbn. rewrite length_fmap, length_app. cbn. lia.
  - eexists _, _, _. split; [exact Hm|].
    split; [|split; [discriminate|reflexivity]].
    intros _. split; [exact (CanMerge_true_size _ _ _ _ _ _ Hcan)|].
    subst l. cbn. rewrite length_fmap. lia.
  - destruct l as [|x t]; [cbn in Hlen; lia|].
    exists false, x, t. split; [exact Hm|].
    split; [discriminate|]. split; [reflexivity|].
    intros [H|H]; congruence.
Qed.

(** What [MergeSegregatedRoads] does after the merges that include the
    u-turn, for an invariant of the whole intersection that every merge of
    the general pass keeps. *)
Lemma MergeSegregatedRoads_list_inv (Inv : Intersection -> Prop) (node : NodeID)
    (Hstep : forall l index right_road road,
        Inv l -> (2 <= index < length l)%nat ->
        CanMerge EMPTY_NAMEID self node l index (index - 1) = Some true ->
        l !! (index - 1)%nat = Some right_road -> l !! index = Some road ->
        Inv (delete index (<[(index - 1)%nat := merge right_road road]> l)))
    (l : Intersection) (merged_first : bool) (x : ConnectedRoad)
    (t : Intersection) :
  (2 <= length l)%nat ->
  merge_first EMPTY_NAMEID self node l = Some (merged_first, x :: t) ->
  Inv ((if merged_first && is_connected_to_roundabout self l
        then with_entry_allowed false x else x) :: t) ->
  exists t',
    MergeSegregatedRoads EMPTY_NAMEID self node l
    = Some (std_sort
              ((if merged_first && is_connected_to_roundabout self l
                then with_entry_allowed false x else x) :: t')) /\
    Inv ((if merged_first && is_connected_to_roundabout self l
          then with_entry_allowed false x else x) :: t') /\
    (length t' <= length t)%nat.
Proof.
  intros Hlen Hfirst Hinv.
  destruct (MergeSegregatedRoads_after_first EMPTY_NAMEID self (fun _ => True)
              (fun _ _ _ _ => I) (fun _ _ => I) node l merged_first x t Hlen
              Hfirst)
    as (t' & Hloop & Hout & _ & Hle).
  { apply Forall_true. intros _. exact I. }
  destruct (merge_loop_list_inv Inv node Hstep _ _ 2 (Nat.le_refl _)
              (Nat.le_refl 2) Hinv)
    as (out & Hloop' & Hinv').
  rewrite Hloop in Hloop'. injection Hloop' as <-.
  exists t'. split; [exact Hout|]. split; [exact Hinv'|exact Hle].
Qed.

(** The loop body rewrites the entry at its index and nothing else, and
    leaves the edge and the entry permission of that entry alone. *)
Lemma adjust_at_shape (node : NodeID) (l : Intersection) (index : nat)
    (road : ConnectedRoad) :
  l !! index = Some road -> (1 <= index)%nat ->
  exists road',
    adjust_at EMPTY_NAMEID MAXIMAL_ALLOWED_NO_TURN_DEVIATION self node l index
    = Some (<[index := road']> l) /\
    eid road' = eid road /\ entry_allowed road' = entry_allowed road.
Proof.
  intros Hroad Hidx.
  destruct (adjust_at_cases EMPTY_NAMEID MAXIMAL_ALLOWED_NO_TURN_DEVIATION self
              node l index road Hroad Hidx)
    as [Hsame|[(n0 & n1 & nb & _ & _ & _ & Hat)|(n0 & n1 & nb & _ & _ & _ & Hat)]].
  - exists road. rewrite list_insert_id by exact Hroad. auto.
  - eexists. split; [exact Hat|]. split; reflexivity.
  - eexists. split; [exact Hat|]. split; reflexivity.
Qed.

(** [AdjustForJoiningRoads] returns, and keeps what an entry with the same
    edge and the same entry permission keeps. *)
Lemma AdjustForJoiningRoads_keeps (P : ConnectedRoad -> Prop)
    (HP : forall r r',
        eid r' = eid r -> entry_allowed r' = entry_allowed r -> P r -> P r')
    (node : NodeID) (l : Intersection) :
  Forall P l ->
  exists out,
    AdjustForJoiningRoads EMPTY_NAMEID MAXIMAL_ALLOWED_NO_TURN_DEVIATION self
      node l = Some out /\
    Forall P out /\ length out = length l.
Proof.
  apply AdjustForJoiningRoads_inv. clear l. intros l index HPl Hidx.
  destruct (lookup_lt_is_Some_2 l index) as [road Hroad]; [lia|].
  destruct (adjust_at_shape node l index road Hroad) as (road' & Hat & He & Ha);
    [lia|].
  eexists. split; [exact Hat|]. split; [|apply length_insert].
  apply Forall_insert; [exact HPl|].
  apply (HP road road' He Ha). exact (Forall_lookup_1 _ _ _ _ HPl Hroad).
Qed.

(** ** Size *)

(** X1: [MergeSegregatedRoads] never lengthens the intersection and
    [AdjustForJoiningRoads] keeps its length, so the result of the normaliser
    never has more roads than the intersection it was given. *)
Theorem normalize_never_longer (node : NodeID) (l : Intersection) :
  exists merged out,
    MergeSegregatedRoads EMPTY_NAMEID self node l = Some merged /\
    AdjustForJoiningRoads EMPTY_NAMEID MAXIMAL_ALLOWED_NO_TURN_DEVIATION self
      node merged = Some out /\
    normalize EMPTY_NAMEID MAXIMAL_ALLOWED_NO_TURN_DEVIATION self node l
    = Some out /\
    (length merged <= length l)%nat /\ length out = length merged.
Proof.
  assert (Hmerge : exists merged,
             MergeSegregatedRoads EMPTY_NAMEID self node l = Some merged /\
             (length merged <= length l)%nat).
  { destruct (Nat.leb_spec (length l) 1) as [Hle|Hgt].
    - exists l. split; [|lia]. unfold MergeSegregatedRoads.
      destruct (Nat.leb_spec (length l) 1); [reflexivity|lia].
    - destruct (merge_first_length node l) as (b & x & t & Hm & Htrue & Hfalse & _);
        [lia|].
      destruct (MergeSegregatedRoads_list_inv (fun _ => True) node
                  (fun _ _ _ _ _ _ _ _ _ => I) l b x t ltac:(lia) Hm I)
        as (t' & Hout & _ & Hle).
      eexists. split; [exact Hout|].
      rewrite std_sort_length. cbn [length].
      destruct b.
      + destruct (Htrue eq_refl) as [_ Hlen]. cbn [length] in Hlen. lia.
      + rewrite <- (Hfalse eq_refl). cbn [length]. lia. }
  destruct Hmerge as (merged & Hmerged & Hle).
  destruct (AdjustForJoiningRoads_keeps (fun _ => True) (fun _ _ _ _ _ => I)
              node merged)
    as (out & Hout & _ & Hlen).
  { apply Forall_true. intros _. exact I. }
  exists merged, out. repeat split; try assumption.
  unfold normalize. rewrite Hmerged. exact Hout.
Qed.

(** X2: an intersection of two or more roads keeps at least two roads:
    [CanMerge] refuses an intersection of degree two, so the merges stop
    before they would leave a dead end. *)
Theorem MergeSegregatedRoads_keeps_two (node : NodeID) (l : Intersection) :
  (2 <= length l)%nat ->
  exists out,
    MergeSegregatedRoads EMPTY_NAMEID self node l = Some out /\
    (2 <= length out)%nat.
Proof.
  intros Hlen.
  destruct (merge_first_length node l Hlen)
    as (b & x & t & Hm & Htrue & Hfalse & _).
  assert (Htwo : (2 <= length (x :: t))%nat).
  { destruct b.
    - destruct (Htrue eq_refl) as [H3 Hl]. lia.
    - rewrite (Hfalse eq_refl). exact Hlen. }
  destruct (MergeSegregatedRoads_list_inv (fun l' => (2 <= length l')%nat) node)
    with (l := l) (merged_first := b) (x := x) (t := t)
    as (t' & Hout & Hinv & _); try assumption.
  - intros l' index right_road road Hl' Hidx Hcan Hr Hc.
    apply CanMerge_true_size in Hcan.
    rewrite length_delete, length_insert; [lia|].
    apply lookup_lt_is_Some_2. rewrite length_insert. lia.
  - eexists. split; [exact Hout|]. rewrite std_sort_length. exact Hinv.
Qed.

(** X3: when a merge that includes the u-turn fires, with the last entry or
    with entry 1, the result has fewer roads than the intersection had. *)
Theorem MergeSegregatedRoads_uturn_merge_shrinks (node : NodeID)
    (l : Intersection) :
  CanMerge EMPTY_NAMEID self node l 0 (length l - 1) = Some true \/
  CanMerge EMPTY_NAMEID self node l 0 1 = Some true ->
  exists out,
    MergeSegregatedRoads EMPTY_NAMEID self node l = Some out /\
    (length out < length l)%nat.
Proof.
  intros Hcan.
  assert (Hlen : (2 < length l)%nat).
  { destruct Hcan as [H|H]; exact (CanMerge_true_size _ _ _ _ _ _ H). }
  destruct (merge_first_length node l) as (b & x & t & Hm & Htrue & _ & Hb);
    [lia|].
  specialize (Hb Hcan). subst b. destruct (Htrue eq_refl) as [_ Hl].
  destruct (MergeSegregatedRoads_list_inv (fun _ => True) node
              (fun _ _ _ _ _ _ _ _ _ => I) l true x t ltac:(lia) Hm I)
    as (t' & Hout & _ & Hle).
  eexists. split; [exact Hout|].
  rewrite std_sort_length. cbn [length] in Hl |- *. lia.
Qed.

(** ** What the adjustment leaves alone *)

(** X5: [AdjustForJoiningRoads] never adjusts the u-turn: entry 0 of the
    result is entry 0 of the intersection, whatever the collaborators say. *)
Theorem AdjustForJoiningRoads_uturn_untouched (node : NodeID)
    (l : Intersection) :
  exists out,
    AdjustForJoiningRoads EMPTY_NAMEID MAXIMAL_ALLOWED_NO_TURN_DEVIATION self
      node l = Some out /\
    out !! 0%nat = l !! 0%nat.
Proof.
  destruct (AdjustForJoiningRoads_inv EMPTY_NAMEID
              MAXIMAL_ALLOWED_NO_TURN_DEVIATION self
              (fun l' => l' !! 0%nat = l !! 0%nat) node)
    with (l := l) as (out & Hout & Hhead & _).
  - intros l' index Hhead Hidx.
    destruct (lookup_lt_is_Some_2 l' index) as [road Hroad]; [lia|].
    destruct (adjust_at_shape node l' index road Hroad) as (road' & Hat & _);
      [lia|].
    eexists. split; [exact Hat|]. split; [|apply length_insert].
    rewrite list_lookup_insert_ne by lia. exact Hhead.
  - reflexivity.
  - exists out. split; assumption.
Qed.

(** X6: [AdjustForJoiningRoads] changes angles and bearings only: the result
    has as many roads as the intersection, and the road at each index has the
    edge and the entry permission it had. *)
Theorem AdjustForJoiningRoads_keeps_edges (node : NodeID) (l : Intersection) :
  exists out,
    AdjustForJoiningRoads EMPTY_NAMEID MAXIMAL_ALLOWED_NO_TURN_DEVIATION self
      node l = Some out /\
    length out = length l /\
    forall i road,
      l !! i = Some road ->
      exists road',
        out !! i = Some road' /\
        eid road' = eid road /\ entry_allowed road' = entry_allowed road.
Proof.
  destruct (AdjustForJoiningRoads_inv EMPTY_NAMEID
              MAXIMAL_ALLOWED_NO_TURN_DEVIATION self
              (fun l' => forall i road,
                   l !! i = Some road ->
                   exists road',
                     l' !! i = Some road' /\
                     eid road' = eid road /\
                     entry_allowed road' = entry_allowed road) node)
    with (l := l) as (out & Hout & Hsame & Hlen).
  - intros l' index Hsame Hidx.
    destruct (lookup_lt_is_Some_2 l' index) as [current Hcurrent]; [lia|].
    destruct (adjust_at_shape node l' index current Hcurrent)
      as (road' & Hat & He & Ha); [lia|].
    eexists. split; [exact Hat|]. split; [|apply length_insert].
    intros i road Hroad. destruct (Hsame i road Hroad) as (r & Hr & Hre & Hra).
    destruct (decide (index = i)) as [->|Hne].
    + exists road'. rewrite list_lookup_insert_eq by lia.
      rewrite Hcurrent in Hr. injection Hr as ->.
      split; [reflexivity|]. split; congruence.
    + exists r. rewrite list_lookup_insert_ne by exact Hne. auto.
  - intros i road Hroad. exists road. auto.
  - exists out. auto.
Qed.

(** ** What the whole normaliser keeps *)

Lemma merge_first_keeps (P : ConnectedRoad -> Prop)
    (HPmerge : forall a b, P a -> P b -> P (merge a b))
    (HPangle : forall a r, P r -> P (with_angle a r))
    (node : NodeID) (l : Intersection) :
  (2 <= length l)%nat -> Forall P l ->
  exists merged_first x t,
    merge_first EMPTY_NAMEID self node l = Some (merged_first, x :: t) /\
    Forall P (x :: t).
Proof.
  intros Hlen HPl.
  destruct (merge_first_cases EMPTY_NAMEID self node l Hlen)
    as [(first & interior & last & Hl & _ & _ & Hm)
       |[(first & second & rest & Hl & _ & _ & _ & Hm)|(_ & _ & Hm)]].
  - eexists _, _, _. split; [exact Hm|]. subst l.
    apply Forall_cons in HPl. destruct HPl as [Hfirst HPl].
    apply Forall_app in HPl. destruct HPl as [Hint Hlast].
    apply Forall_cons in Hlast. destruct Hlast as [Hlast _].
    constructor; [apply HPangle, HPmerge; assumption|].
    apply Forall_fmap. eapply Forall_impl; [exact Hint|].
    intros r Hr. apply HPangle. exact Hr.
  - eexists _, _, _. split; [exact Hm|]. subst l.
    apply Forall_cons in HPl. destruct HPl as [Hfirst HPl].
    apply Forall_cons in HPl. destruct HPl as [Hsecond Hrest].
    constructor; [apply HPangle, HPmerge; assumption|].
    apply Forall_fmap. eapply Forall_impl; [exact Hrest|].
    intros r Hr. apply HPangle. exact Hr.
  - destruct l as [|x t]; [cbn in Hlen; lia|].
    exists false, x, t. split; [exact Hm|exact HPl].
Qed.

(** A property of roads that [merge] keeps, that withdrawing the entry
    permission keeps, and that depends on the edge and the entry permission
    only, holds of every road of the result when it holds of every road of
    the intersection. *)
Lemma normalize_keeps (P : ConnectedRoad -> Prop)
    (HPmerge : forall a b, P a -> P b -> P (merge a b))
    (HPentry : forall r, P r -> P (with_entry_allowed false r))
    (HPsame : forall r r',
        eid r' = eid r -> entry_allowed r' = entry_allowed r -> P r -> P r')
    (node : NodeID) (l : Intersection) :
  Forall P l ->
  exists out,
    normalize EMPTY_NAMEID MAXIMAL_ALLOWED_NO_TURN_DEVIATION self node l
    = Some out /\
    Forall P out.
Proof.
  intros HPl.
  assert (Hmerge : exists merged,
             MergeSegregatedRoads EMPTY_NAMEID self node l = Some merged /\
             Forall P merged).
  { destruct (Nat.leb_spec (length l) 1) as [Hle|Hgt].
    - exists l. split; [|exact HPl]. unfold MergeSegregatedRoads.
      destruct (Nat.leb_spec (length l) 1); [reflexivity|lia].
    - destruct (merge_first_keeps P HPmerge) with (node := node) (l := l)
        as (b & x & t & Hm & HPxt); [|lia|exact HPl|].
      { intros a r Hr. exact (HPsame r (with_angle a r) eq_refl eq_refl Hr). }
      destruct (MergeSegregatedRoads_after_first EMPTY_NAMEID self P HPmerge
                  HPentry node l b x t ltac:(lia) Hm HPxt)
        as (t' & _ & Hout & HPout & _).
      eexists. split; [exact Hout|]. apply std_sort_Forall. exact HPout. }
  destruct Hmerge as (merged & Hmerged & HPmerged).
  destruct (AdjustForJoiningRoads_keeps P HPsame node merged HPmerged)
    as (out & Hout & HPout & _).
  exists out. split; [|exact HPout].
  unfold normalize. rewrite Hmerged. exact Hout.
Qed.

(** X7: the normaliser invents no road: every road of the result carries
    the edge of a road of the intersection. *)
Theorem normalize_edges_from_input (node : NodeID) (l : Intersection) :
  exists out,
    normalize EMPTY_NAMEID MAXIMAL_ALLOWED_NO_TURN_DEVIATION self node l
    = Some out /\
    Forall (fun road' => exists road, road ∈ l /\ eid road' = eid road) out.
Proof.
  apply normalize_keeps.
  - intros a b (ra & Ha & Hea) (rb & Hb & Heb). unfold merge.
    destruct (entry_allowed a); cbn; [exists ra|exists rb]; auto.
  - intros r Hr. exact Hr.
  - intros r r' He _ (r0 & Hin & Her). exists r0. split; [exact Hin|congruence].
  - apply Forall_forall. intros r Hr. exists r. auto.
Qed.

(** X8: the normaliser grants no entry: when no road of the intersection may
    be entered, no road of the result may be entered. *)
Theorem normalize_grants_no_entry (node : NodeID) (l : Intersection) :
  Forall (fun road => entry_allowed road = false) l ->
  exists out,
    normalize EMPTY_NAMEID MAXIMAL_ALLOWED_NO_TURN_DEVIATION self node l
    = Some out /\
    Forall (fun road => entry_allowed road = false) out.
Proof.
  apply normalize_keeps.
  - intros a b Ha Hb. unfold merge. rewrite Ha. cbn. exact Hb.
  - intros r _. reflexivity.
  - intros r r' _ Ha Hr. congruence.
Qed.

(** X9: the two passes compose: on a well ordered intersection whose angles
    and bearings lie in [[0,360]], with a generator whose angles lie in
    [[0,360]] and a guard margin that is not negative, the result of the
    normaliser is again well ordered (ascending by angle, the u-turn first
    and at angle 0) with angles and bearings in [[0,360]]. *)
Theorem normalize_well_ordered (node : NodeID) (l : Intersection) :
  0 <= MAXIMAL_ALLOWED_NO_TURN_DEVIATION -> generator_in_circle self ->
  well_ordered l -> Forall road_in_circle l ->
  exists out,
    normalize EMPTY_NAMEID MAXIMAL_ALLOWED_NO_TURN_DEVIATION self node l
    = Some out /\
    well_ordered out /\ Forall road_in_circle out.
Proof.
  intros HM Hgen Hwell Hin.
  assert (Hmerge : exists merged,
             MergeSegregatedRoads EMPTY_NAMEID self node l = Some merged /\
             well_ordered merged /\ Forall road_in_circle merged).
  { destruct (Nat.leb_spec (length l) 1) as [Hle|Hgt].
    - exists l. split; [|split; assumption]. unfold MergeSegregatedRoads.
      destruct (Nat.leb_spec (length l) 1); [reflexivity|lia].
    - destruct Hwell as (Hasc & _ & uturn & Huturn & Hzero).
      destruct (merge_first_in_circle EMPTY_NAMEID self node l)
        as (b & x & t & Hm & Hxt & Hmerged & _); [lia|exact Hasc|exact Hin|].
      assert (Hx : angle x == 0).
      { destruct b; [rewrite (Hmerged eq_refl); reflexivity|].
        destruct (merge_first_length node l) as (b' & x' & t' & Hm' & _ & Hl & _);
          [lia|].
        rewrite Hm in Hm'. injection Hm' as <- <- <-.
        rewrite <- (Hl eq_refl) in Huturn. cbn in Huturn.
        injection Huturn as ->. exact Hzero. }
      destruct (MergeSegregatedRoads_after_first EMPTY_NAMEID self road_in_circle
                  merge_in_circle (with_entry_allowed_in_circle false) node l
                  b x t ltac:(lia) Hm Hxt)
        as (t' & _ & Hout & Hcircle & _).
      set (x' := if b && is_connected_to_roundabout self l
                 then with_entry_allowed false x else x) in *.
      assert (Hx' : angle x' == 0).
      { unfold x'. destruct (_ && _); exact Hx. }
      eexists. split; [exact Hout|]. split; [split; [|split]|].
      + apply StronglySorted_ascending, std_sort_sorted.
      + apply std_sort_Forall. eapply Forall_impl; [exact Hcircle|].
        intros r [Hr _]. exact Hr.
      + exists x'. split; [|exact Hx'].
        rewrite std_sort_head; [reflexivity|].
        apply Forall_cons in Hcircle. destruct Hcircle as [_ Ht'].
        eapply Forall_impl; [exact Ht'|].
        intros y [[Hy _] _]. cbn. lra.
      + apply std_sort_Forall. exact Hcircle. }
  destruct Hmerge as (merged & Hmerged & Hwell' & Hin').
  destruct (AdjustForJoiningRoads_inv EMPTY_NAMEID
              MAXIMAL_ALLOWED_NO_TURN_DEVIATION self well_ordered node)
    with (l := merged) as (out & Hout & Hwello & _).
  - intros l' index Hl' Hidx. apply adjust_at_well_ordered; assumption.
  - exact Hwell'.
  - destruct (AdjustForJoiningRoads_in_circle EMPTY_NAMEID
                MAXIMAL_ALLOWED_NO_TURN_DEVIATION self node merged Hgen Hin')
      as (out' & Hout' & Hino & _).
    rewrite Hout in Hout'. injection Hout' as <-.
    exists out. split; [|split; assumption].
    unfold normalize. rewrite Hmerged. exact Hout.
Qed.

(** ** The other merge that includes the u-turn, and dead ends *)

(** X11: when [CanMerge] fails for entry 0 and the last entry and holds for
    entries 0 and 1, every entry from index 2 on keeps its edge, bearing and
    entry permission and has its angle lowered by half the angle of entry 1;
    entry 0 becomes the merge of entries 0 and 1 (the edge of entry 0 when
    that may be entered and of entry 1 otherwise, the bearing
    [combineAngles] of the two bearings) with angle 0; entry 1 is dropped.
    The rest of [MergeSegregatedRoads] runs on that intersection. *)
Theorem MergeSegregatedRoads_merges_second (node : NodeID) (l : Intersection) :
  CanMerge EMPTY_NAMEID self node l 0 (length l - 1) = Some false ->
  CanMerge EMPTY_NAMEID self node l 0 1 = Some true ->
  exists first second rest,
    l = first :: second :: rest /\
    merge_first EMPTY_NAMEID self node l =
    Some (true,
          mkConnectedRoad
            (if entry_allowed first then eid first else eid second)
            0 (combineAngles (bearing first) (bearing second))
            (entry_allowed first || entry_allowed second)
            :: ((fun road =>
                   mkConnectedRoad (eid road) (angle road - angle second / 2)
                     (bearing road) (entry_allowed road)) <$> rest)) /\
    exists rest',
      merge_loop EMPTY_NAMEID self node
        (mkConnectedRoad
           (if entry_allowed first then eid first else eid second)
           0 (combineAngles (bearing first) (bearing second))
           (if is_connected_to_roundabout self l then false
            else entry_allowed first || entry_allowed second)
           :: ((fun road =>
                  mkConnectedRoad (eid road) (angle road - angle second / 2)
                    (bearing road) (entry_allowed road)) <$> rest)) 2
      = Some (mkConnectedRoad
                (if entry_allowed first then eid first else eid second)
                0 (combineAngles (bearing first) (bearing second))
                (if is_connected_to_roundabout self l then false
                 else entry_allowed first || entry_allowed second) :: rest') /\
      MergeSegregatedRoads EMPTY_NAMEID self node l
      = Some (std_sort
                (mkConnectedRoad
                   (if entry_allowed first then eid first else eid second)
                   0 (combineAngles (bearing first) (bearing second))
                   (if is_connected_to_roundabout self l then false
                    else entry_allowed first || entry_allowed second)
                   :: rest')).
Proof.
  intros Hlast Hcan. pose proof (CanMerge_true_size _ _ _ _ _ _ Hcan) as Hlen.
  destruct l as [|first [|second rest]]; try (cbn in Hlen; lia).
  exists first, second, rest. split; [reflexivity|].
  pose proof (merge_first_second EMPTY_NAMEID self node _ first second rest
                eq_refl Hlast Hcan) as Hfirst.
  split; [rewrite Hfirst, merged_uturn_fields; reflexivity|].
  destruct (MergeSegregatedRoads_after_first EMPTY_NAMEID self (fun _ => True)
              (fun _ _ _ _ => I) (fun _ _ => I) node
              (first :: second :: rest) _ _ _ ltac:(cbn; lia) Hfirst)
    as (rest' & Hloop & Hout & _).
  - apply Forall_true. intros _. exact I.
  - exists rest'. cbn [andb] in Hloop, Hout.
    rewrite merged_uturn_fields in Hloop, Hout.
    destruct (is_connected_to_roundabout self (first :: second :: rest));
      split; assumption.
Qed.

(** X12: a dead end, and the empty intersection, pass through both passes
    and through the normaliser as they are. *)
Theorem normalize_dead_end (node : NodeID) (l : Intersection) :
  (length l <= 1)%nat ->
  MergeSegregatedRoads EMPTY_NAMEID self node l = Some l /\
  AdjustForJoiningRoads EMPTY_NAMEID MAXIMAL_ALLOWED_NO_TURN_DEVIATION self
    node l = Some l /\
  normalize EMPTY_NAMEID MAXIMAL_ALLOWED_NO_TURN_DEVIATION self node l = Some l.
Proof.
  intros Hlen.
  assert (Hm : MergeSegregatedRoads EMPTY_NAMEID self node l = Some l).
  { unfold MergeSegregatedRoads.
    destruct (Nat.leb_spec (length l) 1); [reflexivity|lia]. }
  assert (Ha : AdjustForJoiningRoads EMPTY_NAMEID
                 MAXIMAL_ALLOWED_NO_TURN_DEVIATION self node l = Some l).
  { unfold AdjustForJoiningRoads.
    destruct (Nat.leb_spec (length l) 1); [reflexivity|lia]. }
  split; [exact Hm|]. split; [exact Ha|].
  unfold normalize. rewrite Hm. exact Ha.
Qed.

(** ** How far the adjustment turns a road *)

(** An invariant that may depend on the index the loop has reached. *)
Lemma adjust_loop_indexed (Inv : nat -> Intersection -> Prop) (node : NodeID)
    (Hstep : forall l index,
        Inv index l -> (1 <= index < length l)%nat ->
        exists l',
          adjust_at EMPTY_NAMEID MAXIMAL_ALLOWED_NO_TURN_DEVIATION self node l index
          = Some l' /\ Inv (S index) l' /\ length l' = length l) :
  forall (count index : nat) (l : Intersection),
    Inv index l -> (1 <= index)%nat -> (index + count <= length l)%nat ->
    exists out,
      adjust_loop EMPTY_NAMEID MAXIMAL_ALLOWED_NO_TURN_DEVIATION self node
        index count l = Some out /\
      Inv (index + count)%nat out /\ length out = length l.
Proof.
  induction count as [|count IH]; intros index l Hinv Hidx Hlen; cbn.
  - exists l. rewrite Nat.add_0_r. auto.
  - destruct (Hstep l index Hinv) as (l' & Hat & Hinv' & Hlen'); [lia|].
    rewrite Hat. cbn [mbind option_bind].
    destruct (IH (S index) l' Hinv') as (out & Hout & Hinvo & Hleno); [lia|lia|].
    exists out. replace (index + S count)%nat with (S index + count)%nat by lia.
    repeat split; [exact Hout|exact Hinvo|lia].
Qed.

(** X13: with a generator whose angles lie in [[0,360]], on an intersection
    whose angles and bearings lie in [[0,360]], [AdjustForJoiningRoads]
    leaves a road as it is or turns it once: its angle and its bearing move
    by one and the same offset of at most 90 degrees, each wrapped by
    [adjustAngle], and nothing else of the road changes. *)
Theorem AdjustForJoiningRoads_one_offset (node : NodeID) (l : Intersection) :
  generator_in_circle self -> Forall road_in_circle l ->
  exists out,
    AdjustForJoiningRoads EMPTY_NAMEID MAXIMAL_ALLOWED_NO_TURN_DEVIATION self
      node l = Some out /\
    length out = length l /\
    forall i road,
      l !! i = Some road ->
      out !! i = Some road \/
      exists offset,
        -90 <= offset <= 90 /\ out !! i = Some (adjust_road offset road).
Proof.
  intros Hgen Hin. unfold AdjustForJoiningRoads.
  destruct (Nat.leb_spec (length l) 1) as [Hle|Hgt].
  { exists l. split; [reflexivity|]. split; [reflexivity|]. auto. }
  destruct (adjust_loop_indexed
              (fun k l' =>
                 Forall road_in_circle l' /\
                 (forall i, (k <= i)%nat -> l' !! i = l !! i) /\
                 (forall i road,
                     l !! i = Some road ->
                     l' !! i = Some road \/
                     exists offset,
                       -90 <= offset <= 90 /\
                       l' !! i = Some (adjust_road offset road))) node)
    with (count := (length l - 1)%nat) (index := 1%nat) (l := l)
    as (out & Hout & (_ & _ & Hturned) & Hlen).
  - intros l' k (Hin' & Hrest & Hturned) Hk.
    destruct (lookup_lt_is_Some_2 l' k) as [road Hroad]; [lia|].
    pose proof (Forall_lookup_1 _ _ _ _ Hin' Hroad) as Hr.
    assert (Hoffset : forall n0 n1,
               n0 ∈ intersection_generator self node (eid road) ->
               n1 ∈ intersection_generator self node (eid road) ->
               0 <= get_offset n0 n1 <= 90).
    { intros n0 n1 H0 H1. specialize (Hgen node (eid road)).
      rewrite Forall_forall in Hgen.
      apply get_offset_range; apply Hgen; assumption. }
    assert (Hturn : forall c,
               -90 <= c <= 90 ->
               Forall road_in_circle (<[k := adjust_road c road]> l') /\
               (forall i, (S k <= i)%nat ->
                          <[k := adjust_road c road]> l' !! i = l !! i) /\
               (forall i r,
                   l !! i = Some r ->
                   <[k := adjust_road c road]> l' !! i = Some r \/
                   exists offset,
                     -90 <= offset <= 90 /\
                     <[k := adjust_road c road]> l' !! i
                     = Some (adjust_road offset r))).
    { intros c Hc. split; [|split].
      - apply Forall_insert; [exact Hin'|].
        apply adjust_road_in_circle; assumption.
      - intros i Hi. rewrite list_lookup_insert_ne by lia. apply Hrest. lia.
      - intros i r Hir. destruct (decide (k = i)) as [->|Hne].
        + right. exists c. split; [exact Hc|].
          rewrite list_lookup_insert_eq by lia.
          rewrite (Hrest i (Nat.le_refl i)), Hir in Hroad.
          injection Hroad as ->. reflexivity.
        + rewrite list_lookup_insert_ne by exact Hne. apply Hturned. exact Hir. }
    destruct (adjust_at_cases EMPTY_NAMEID MAXIMAL_ALLOWED_NO_TURN_DEVIATION
                self node l' k road Hroad)
      as [Hsame|[(n0 & n1 & nb & H0 & H1 & Hnb & Hat)
                |(n0 & n1 & nb & H0 & H1 & Hnb & Hat)]]; [lia| | |].
    + exists l'. split; [exact Hsame|]. split; [|reflexivity].
      split; [exact Hin'|]. split; [|exact Hturned].
      intros i Hi. apply Hrest. lia.
    + eexists. split; [exact Hat|]. split; [|apply length_insert].
      pose proof (Forall_lookup_1 _ _ _ _ Hin' Hnb) as Hn.
      pose proof (get_corrected_offset_range MAXIMAL_ALLOWED_NO_TURN_DEVIATION
                    (get_offset n0 n1) road nb (proj1 Hr) (proj1 Hn)
                    (Hoffset n0 n1 H0 H1)) as Hc.
      apply Hturn. lra.
    + eexists. split; [exact Hat|]. split; [|apply length_insert].
      pose proof (Forall_lookup_1 _ _ _ _ Hin' Hnb) as Hn.
      pose proof (get_corrected_offset_range MAXIMAL_ALLOWED_NO_TURN_DEVIATION
                    (get_offset n0 n1) road nb (proj1 Hr) (proj1 Hn)
                    (Hoffset n0 n1 H0 H1)) as Hc.
      apply Hturn. lra.
  - split; [exact Hin|]. split; [reflexivity|]. auto.
  - lia.
  - lia.
  - exists out. split; [exact Hout|]. split; [exact Hlen|exact Hturned].
Qed.

(** ** Every order the sort may leave *)

Lemma MergeSegregatedRoads_passes (node : NodeID) (l : Intersection) :
  MergeSegregatedRoads EMPTY_NAMEID self node l =
  if (length l <=? 1)%nat then Some l
  else std_sort <$> merge_passes EMPTY_NAMEID self node l.
Proof.
  unfold MergeSegregatedRoads, merge_passes.
  destruct (length l <=? 1)%nat; [reflexivity|].
  destruct (merge_first EMPTY_NAMEID self node l) as [[b l1]|]; [|reflexivity].
  cbn [mbind option_bind fmap option_fmap option_map].
  destruct (if b && is_connected_to_roundabout self l
            then disable_uturn l1 else Some l1) as [l2|]; [|reflexivity].
  cbn [mbind option_bind].
  destruct (merge_loop EMPTY_NAMEID self node l2 2); reflexivity.
Qed.

(** What the embedding returns is among what the source may return. *)
Lemma MergeSegregatedRoads_is_outcome (node : NodeID) (l out : Intersection) :
  MergeSegregatedRoads EMPTY_NAMEID self node l = Some out ->
  MergeSegregatedRoads_may_return EMPTY_NAMEID self node l out.
Proof.
  rewrite MergeSegregatedRoads_passes. unfold MergeSegregatedRoads_may_return.
  destruct (length l <=? 1)%nat; [congruence|].
  destruct (merge_passes EMPTY_NAMEID self node l) as [merged|];
    [|discriminate].
  cbn. intros [= <-]. exists merged. split; [reflexivity|].
  apply std_sort_outcome.
Qed.

(** The passes before the sort, for an invariant of the whole intersection
    that every merge of the general pass keeps. *)
Lemma merge_passes_inv (Inv : Intersection -> Prop) (node : NodeID)
    (Hstep : forall l index right_road road,
        Inv l -> (2 <= index < length l)%nat ->
        CanMerge EMPTY_NAMEID self node l index (index - 1) = Some true ->
        l !! (index - 1)%nat = Some right_road -> l !! index = Some road ->
        Inv (delete index (<[(index - 1)%nat := merge right_road road]> l)))
    (l : Intersection) (merged_first : bool) (x : ConnectedRoad)
    (t : Intersection) :
  merge_first EMPTY_NAMEID self node l = Some (merged_first, x :: t) ->
  Inv ((if merged_first && is_connected_to_roundabout self l
        then with_entry_allowed false x else x) :: t) ->
  exists merged,
    merge_passes EMPTY_NAMEID self node l = Some merged /\ Inv merged.
Proof.
  intros Hfirst Hinv.
  destruct (merge_loop_list_inv Inv node Hstep _ _ 2 (Nat.le_refl _)
              (Nat.le_refl 2) Hinv)
    as (out & Hloop & Hinv').
  exists out. split; [|exact Hinv'].
  unfold merge_passes. rewrite Hfirst. cbn [mbind option_bind].
  destruct (merged_first && is_connected_to_roundabout self l);
    cbn [disable_uturn lookup list_lookup mbind option_bind insert list_insert];
    exact Hloop.
Qed.


Lemma normalize_lengths_total (node : NodeID) (l : Intersection) :
  exists merged, MergeSegregatedRoads EMPTY_NAMEID self node l = Some merged.
Proof.
  destruct (Nat.leb_spec (length l) 1) as [Hle|Hgt].
  - exists l. unfold MergeSegregatedRoads.
    destruct (Nat.leb_spec (length l) 1); [reflexivity|lia].
  - destruct (merge_first_length node l) as (b & x & t & Hm & _); [lia|].
    destruct (MergeSegregatedRoads_list_inv (fun _ => True) node
                (fun _ _ _ _ _ _ _ _ _ => I) l b x t ltac:(lia) Hm I)
      as (t' & Hout & _).
    eexists. exact Hout.
Qed.


(** X4: an intersection whose angles are strictly ascending and on which no
    pair of roads can merge, and so every such intersection of at most two
    roads, comes out of [MergeSegregatedRoads] as it went in, in whichever
    order [std::sort] leaves roads of equal angle. *)
Theorem MergeSegregatedRoads_unmergable (node : NodeID) (l : Intersection) :
  strictly_ascending l ->
  (length l <= 2)%nat \/
  (forall i j, CanMerge EMPTY_NAMEID self node l i j <> Some true) ->
  MergeSegregatedRoads EMPTY_NAMEID self node l = Some l /\
  (forall out,
      MergeSegregatedRoads_may_return EMPTY_NAMEID self node l out -> out = l).
Proof.
  intros Hstrict Hnone.
  assert (Hno : forall i j, CanMerge EMPTY_NAMEID self node l i j <> Some true).
  { destruct Hnone as [Hshort|Hno]; [|exact Hno].
    intros i j Hcan. apply CanMerge_true_size in Hcan. lia. }
  assert (Hall : forall out,
             MergeSegregatedRoads_may_return EMPTY_NAMEID self node l out ->
             out = l).
  { intros out Hout. unfold MergeSegregatedRoads_may_return in Hout.
    destruct (Nat.leb_spec (length l) 1) as [Hle|Hgt]; [exact Hout|].
    destruct Hout as (merged & Hmerged & Hsorted).
    destruct (merge_first_cases EMPTY_NAMEID self node l)
      as [(? & ? & ? & _ & _ & Hcan & _)
         |[(? & ? & ? & _ & _ & _ & Hcan & _)|(_ & _ & Hm)]];
      [lia|exact (False_ind _ (Hno _ _ Hcan))
          |exact (False_ind _ (Hno _ _ Hcan))|].
    destruct l as [|x t]; [cbn in Hgt; lia|].
    destruct (merge_passes_inv (fun l' => l' = x :: t) node)
      with (l := x :: t) (merged_first := false) (x := x) (t := t)
      as (merged' & Hmerged' & ->).
    - intros l' index right_road road -> Hidx Hcan _ _.
      exact (False_ind _ (Hno _ _ Hcan)).
    - exact Hm.
    - reflexivity.
    - rewrite Hmerged' in Hmerged. injection Hmerged as <-.
      apply sort_outcome_unique; assumption. }
  split; [|exact Hall].
  destruct (normalize_lengths_total node l) as (merged & Hmerged).
  rewrite Hmerged. f_equal. apply Hall.
  apply MergeSegregatedRoads_is_outcome. exact Hmerged.
Qed.

End NormalizerCoverage.

(** ** The further properties on concrete intersections *)

Lemma merging_and_joining_in_circle : generator_in_circle merging_and_joining.
Proof.
  intros node edge. cbn. unfold joining_generator.
  destruct (edge =? 1)%N; [concrete_circle|].
  destruct (edge =? 2)%N; concrete_circle.
Qed.

(** X2, witness: on the crossing every pair of roads is mergable, and two
    roads are left. *)
Lemma MergeSegregatedRoads_keeps_two_witness :
  exists out,
    MergeSegregatedRoads EMPTY_NAMEID all_mergable 0%N crossing = Some out /\
    (2 <= length out)%nat.
Proof.
  apply (MergeSegregatedRoads_keeps_two EMPTY_NAMEID all_mergable 0%N crossing).
  cbn. lia.
Defined.

(** X3, witness: the u-turn of the crossing merges with the last road. *)
Lemma MergeSegregatedRoads_uturn_merge_shrinks_witness :
  exists out,
    MergeSegregatedRoads EMPTY_NAMEID at_roundabout 0%N crossing = Some out /\
    (length out < length crossing)%nat.
Proof.
  apply (MergeSegregatedRoads_uturn_merge_shrinks EMPTY_NAMEID at_roundabout
           0%N crossing).
  left. reflexivity.
Defined.

(** X4, witness: the angles of [close_turns] are strictly ascending and no
    two of its roads pass the detector of [joining]. *)
Lemma MergeSegregatedRoads_unmergable_witness :
  MergeSegregatedRoads EMPTY_NAMEID joining 0%N close_turns = Some close_turns /\
  (forall out,
      MergeSegregatedRoads_may_return EMPTY_NAMEID joining 0%N close_turns out ->
      out = close_turns).
Proof.
  apply (MergeSegregatedRoads_unmergable EMPTY_NAMEID joining 0%N close_turns).
  - intros i x y Hx Hy.
    destruct i as [|[|[|i]]]; cbn in Hx, Hy;
      try discriminate; injection Hx as <-; injection Hy as <-; cbn; lra.
  - right. intros i j.
    destruct i as [|[|[|i]]], j as [|[|[|j]]]; cbn; discriminate.
Defined.

(** X8, witness: every pair of the closed crossing merges, and no road of the
    result may be entered. *)
Lemma normalize_grants_no_entry_witness :
  exists out,
    normalize EMPTY_NAMEID MAXIMAL_ALLOWED_NO_TURN_DEVIATION all_mergable 0%N
      closed_crossing = Some out /\
    Forall (fun road => entry_allowed road = false) out.
Proof.
  apply (normalize_grants_no_entry EMPTY_NAMEID
           MAXIMAL_ALLOWED_NO_TURN_DEVIATION all_mergable 0%N closed_crossing).
  unfold closed_crossing. repeat constructor.
Defined.

(** X9, witness: roads 2 and 3 of [split_exit] merge, and roads 1 and 2 of
    the result are then moved towards the u-turn. *)
Lemma normalize_well_ordered_witness :
  exists out,
    normalize EMPTY_NAMEID MAXIMAL_ALLOWED_NO_TURN_DEVIATION
      merging_and_joining 0%N split_exit = Some out /\
    well_ordered out /\ Forall road_in_circle out.
Proof.
  apply (normalize_well_ordered EMPTY_NAMEID MAXIMAL_ALLOWED_NO_TURN_DEVIATION
           merging_and_joining 0%N split_exit).
  - unfold MAXIMAL_ALLOWED_NO_TURN_DEVIATION. lra.
  - exact merging_and_joining_in_circle.
  - split; [|split].
    + unfold split_exit. concrete_sorted.
    + unfold split_exit. repeat (constructor; cbn [angle]);
        unfold in_circle; lra.
    + eexists. split; [reflexivity|]. reflexivity.
  - unfold split_exit. concrete_circle.
Defined.


(** X11, witness: the u-turn of the crossing merges with road 1, and roads 2
    and 3 are lowered by 45 to 135 and 225. *)
Lemma MergeSegregatedRoads_merges_second_witness :
  exists first second rest,
    crossing = first :: second :: rest /\
    merge_first EMPTY_NAMEID uturn_and_first 0%N crossing =
    Some (true,
          mkConnectedRoad
            (if entry_allowed first then eid first else eid second)
            0 (combineAngles (bearing first) (bearing second))
            (entry_allowed first || entry_allowed second)
            :: ((fun road =>
                   mkConnectedRoad (eid road) (angle road - angle second / 2)
                     (bearing road) (entry_allowed road)) <$> rest)) /\
    exists rest',
      merge_loop EMPTY_NAMEID uturn_and_first 0%N
        (mkConnectedRoad
           (if entry_allowed first then eid first else eid second)
           0 (combineAngles (bearing first) (bearing second))
           (if is_connected_to_roundabout uturn_and_first crossing then false
            else entry_allowed first || entry_allowed second)
           :: ((fun road =>
                  mkConnectedRoad (eid road) (angle road - angle second / 2)
                    (bearing road) (entry_allowed road)) <$> rest)) 2
      = Some (mkConnectedRoad
                (if entry_allowed first then eid first else eid second)
                0 (combineAngles (bearing first) (bearing second))
                (if is_connected_to_roundabout uturn_and_first crossing
                 then false
                 else entry_allowed first || entry_allowed second) :: rest') /\
      MergeSegregatedRoads EMPTY_NAMEID uturn_and_first 0%N crossing
      = Some (std_sort
                (mkConnectedRoad
                   (if entry_allowed first then eid first else eid second)
                   0 (combineAngles (bearing first) (bearing second))
                   (if is_connected_to_roundabout uturn_and_first crossing
                    then false
                    else entry_allowed first || entry_allowed second)
                   :: rest')).
Proof.
  apply (MergeSegregatedRoads_merges_second EMPTY_NAMEID uturn_and_first 0%N
           crossing); reflexivity.
Defined.


(** X12, witness: a dead end, with every pair of roads mergable. *)
Lemma normalize_dead_end_witness :
  MergeSegregatedRoads EMPTY_NAMEID all_mergable 0%N
    [mkConnectedRoad 0%N 0 180 true]
  = Some [mkConnectedRoad 0%N 0 180 true] /\
  AdjustForJoiningRoads EMPTY_NAMEID MAXIMAL_ALLOWED_NO_TURN_DEVIATION
    all_mergable 0%N [mkConnectedRoad 0%N 0 180 true]
  = Some [mkConnectedRoad 0%N 0 180 true] /\
  normalize EMPTY_NAMEID MAXIMAL_ALLOWED_NO_TURN_DEVIATION all_mergable 0%N
    [mkConnectedRoad 0%N 0 180 true]
  = Some [mkConnectedRoad 0%N 0 180 true].
Proof.
  apply (normalize_dead_end EMPTY_NAMEID MAXIMAL_ALLOWED_NO_TURN_DEVIATION
           all_mergable 0%N [mkConnectedRoad 0%N 0 180 true]).
  cbn. lia.
Defined.

(** X13, witness: roads 1 and 2 of [close_turns] are each turned once. *)
Lemma AdjustForJoiningRoads_one_offset_witness :
  exists out,
    AdjustForJoiningRoads EMPTY_NAMEID MAXIMAL_ALLOWED_NO_TURN_DEVIATION
      joining 0%N close_turns = Some out /\
    length out = length close_turns /\
    forall i road,
      close_turns !! i = Some road ->
      out !! i = Some road \/
      exists offset,
        -90 <= offset <= 90 /\ out !! i = Some (adjust_road offset road).
Proof.
  apply (AdjustForJoiningRoads_one_offset EMPTY_NAMEID
           MAXIMAL_ALLOWED_NO_TURN_DEVIATION joining 0%N close_turns).
  - exact joining_in_circle.
  - unfold close_turns. concrete_circle.
Defined.


